(** * bun-sqlite-migrator: a shallow embedding of [src/index.ts]

    [class Migrator] is embedded as state-passing code in a small monad of
    state and exceptions; every method keeps its name.

    - The log table has [name] as its primary key, so it is a finite map
      from migration name to timestamp; [None] stands for a database in which
      the table has not been created.  Everything else in the database is an
      abstract value that only migration operations read and write.
    - A migration operation is an arbitrary function on the whole database,
      log table and transaction state included, that returns normally or
      throws: it can end the transaction it runs in, and begin another.
    - The driver is modelled by what its statements do to the log table and
      to the transaction state: a statement on a missing table throws, an
      insert of a name that is already logged throws, [COMMIT] throws when
      no transaction is active or a deferred constraint is violated,
      [RELEASE] and [ROLLBACK TO] throw when the savepoint is gone, and
      [db.transaction] rolls back only while a transaction is active.  The
      configured table name is taken to be one that SQLite accepts; other
      faults of the driver (I/O, locks) are not modelled.
    - Strings are the bytes of their UTF-8 encoding.  The [order by] of the
      log compares them byte by byte, the [sort] of the migration names by
      UTF-16 code unit.
    - The migrator sees only the record of migrations its provider
      returns, or what it throws.  [FileMigrationProvider] is embedded apart,
      over what [readdirSync] lists and what [require] returns or throws for
      each file of the folder. *)

From Stdlib Require Import ZArith.
From stdpp Require Import gmap strings list sorting pretty.


(** ** Plain data of the source *)

(** [type MigrationDirection = "Up" | "Down"] *)
Inductive MigrationDirection := Up | Down.

(** [status: "Success" | "Error" | "NotExecuted"] *)
Inductive Status := Success | Error | NotExecuted.

(** [interface MigrationResult] *)
Record MigrationResult := mkResult {
  migrationName : string;
  direction : MigrationDirection;
  status : Status;
}.

Global Instance MigrationDirection_eq_dec : EqDecision MigrationDirection.
Proof. solve_decision. Defined.
Global Instance Status_eq_dec : EqDecision Status.
Proof. solve_decision. Defined.
Global Instance MigrationResult_eq_dec : EqDecision MigrationResult.
Proof. solve_decision. Defined.

(** The [step] argument is a JavaScript number; the model covers the integers
    and [Infinity] (what [migrateToLatest] passes). *)
Inductive Step := Finite (z : Z) | Infinity.

(** [step <= 0] *)
Definition step_le_0 (step : Step) : bool :=
  match step with
  | Finite z => (z <=? 0)%Z
  | Infinity => false
  end.

(** [array.slice(0, step)]: a negative end counts from the end of the array,
    an end beyond the length is clamped. *)
Definition slice0 {A} (step : Step) (l : list A) : list A :=
  match step with
  | Infinity => l
  | Finite z =>
      if (z <? 0)%Z then take (Z.to_nat (Z.max (Z.of_nat (length l) + z) 0)) l
      else take (Z.to_nat z) l
  end.

(** [array.includes(x)] on strings, [===] being [String.eqb]. *)
Fixpoint includes (l : list string) (x : string) : bool :=
  match l with
  | [] => false
  | y :: l' => if String.eqb y x then true else includes l' x
  end.

(** [array.at(-1)] *)
Definition at_last {A} (l : list A) : option A := last l.

(** ** Orders used by the two sorts

    SQLite compares strings byte by byte, JavaScript by UTF-16 code unit.
    On the UTF-8 bytes of well-formed strings the two orders differ only
    where a character from U+E000 to U+FFFF meets a character above U+FFFF:
    in bytes the first is the smaller (lead byte [0xEE] or [0xEF] against
    [0xF0] to [0xF4]), in code units the second (a unit from [0xE000] on
    against a surrogate, [0xD800] to [0xDFFF]). *)

(** The rank of a byte in the order of code units: the lead bytes [0xEE]
    and [0xEF] go above the lead bytes of the characters above U+FFFF, to
    [0xFE] and [0xFF], which UTF-8 does not use. *)
Definition code_unit_rank (b : Ascii.ascii) : Ascii.ascii :=
  Ascii.ascii_of_N
    match Ascii.N_of_ascii b with
    | 238 => 254
    | 239 => 255
    | 254 => 238
    | 255 => 239
    | n => n
    end%N.

Fixpoint code_unit_key (s : string) : string :=
  match s with
  | EmptyString => EmptyString
  | String b s' => String (code_unit_rank b) (code_unit_key s')
  end.

(** [s1 <= s2] in JavaScript, the order of [Array.prototype.sort()] without
    a comparator. *)
Definition code_unit_le (s1 s2 : string) : Prop :=
  String.le (code_unit_key s1) (code_unit_key s2).

Global Instance code_unit_le_dec : RelDecision code_unit_le.
Proof. intros s1 s2. unfold code_unit_le. apply _. Defined.

(** A row of the log table: [(name, timestamp)]. *)
Definition Row : Type := string * string.

(** [order by timestamp, name]: timestamp first, name as the tiebreaker, both
    compared as byte strings. *)
Definition row_leb (r1 r2 : Row) : bool :=
  match String.compare r1.2 r2.2 with
  | Lt => true
  | Eq => String.leb r1.1 r2.1
  | Gt => false
  end.

Definition row_le (r1 r2 : Row) : Prop := row_leb r1 r2 = true.

Global Instance row_le_dec : RelDecision row_le.
Proof. intros r1 r2. unfold row_le. apply _. Defined.

(** The rows of a table in [order by timestamp, name], projected on [name]. *)
Definition select_names (rows : gmap string string) : list string :=
  (merge_sort row_le (map_to_list rows)).*1.

(** [Object.keys(record).sort()] *)
Definition sorted_keys {A} (record : gmap string A) : list string :=
  merge_sort code_unit_le (map_to_list record).*1.

Section Migrator.

(** [U]: everything in the database but the log table.
    [E]: the values that migration operations and the provider throw. *)
Context {U E : Type}.

(** ** Thrown values and result sets *)

(** What a [catch (error)] can receive: an [Error] built by the migrator or
    the driver (its message), a value thrown by a migration operation, or
    the migrator's own [MigrationResultSetError] carrying a result set
    ([error?: unknown; results?: MigrationResult[]]). *)
#[warnings="-register-all"]
Inductive Thrown :=
  | JsError (message : string)
  | Foreign (e : E)
  | MigrationResultSetError (err : option Thrown)
      (res : option (list MigrationResult)).

(** [interface MigrationResultSet] *)
Record MigrationResultSet := mkResultSet {
  error : option Thrown;
  results : option (list MigrationResult);
}.

(** ** The database *)

(** What a rollback restores: the log table and the rest of the database. *)
Definition Snapshot : Type := option (gmap string string) * U.

(** What [ROLLBACK TO] a savepoint restores: the database and the state of
    the deferred constraints at the time the savepoint was set. *)
Definition Savepoint : Type := Snapshot * option string.

(** An active transaction: [ROLLBACK] restores [began]; with
    [violation = Some message] a deferred constraint is violated, and
    [COMMIT] throws an error with that message and leaves the transaction
    active; [savepoints] are the savepoints set under the name that
    [db.transaction] uses and not released since, the latest first. *)
Record Transaction := mkTransaction {
  began : Snapshot;
  violation : option string;
  savepoints : list Savepoint;
}.

(** The database as the connection [props.db] sees it.  [log = None]: the
    log table does not exist.  [begun = Some tx]: the transaction [tx] is
    active ([db.inTransaction]); [begun = None]: the connection is in
    autocommit mode. *)
Record Database := mkDatabase {
  log : option (gmap string string);
  user : U;
  begun : option Transaction;
}.

(** A migration operation ([up(db)], [down(db)]) is an arbitrary state
    transformer of the database that may throw; what it changed before
    throwing is still in the state it leaves behind.  It runs any statement
    it likes: [COMMIT] or [ROLLBACK] end the transaction ([begun] becomes
    [None]) and with it its savepoints, a later [BEGIN] starts another, and
    a statement can violate a deferred constraint or repair it. *)
Definition Operation : Type := Database → option E * Database.

(** [interface Migration] *)
Record Migration := mkMigration {
  up : Operation;
  down : option Operation;
}.

(** [interface NamedMigration extends Migration] *)
Record NamedMigration := mkNamed {
  name : string;
  as_migration :> Migration;
}.

(** [new Date(timestamp)]: the date JavaScript reads from the text, an
    invalid date when it reads none. *)
Inductive Date := new_Date (timestamp : string).

(** [interface MigrationInfo] *)
Record MigrationInfo := mkInfo {
  info_name : string;
  info_migration : Migration;
  executedAt : option Date;
}.

(** [interface MigrationState] *)
Record MigrationState := mkState {
  migrations : list NamedMigration;
  executedMigrations : list string;
  lastMigration : option string;
  pendingMigrations : list NamedMigration;
}.

(** The constructor argument of [Migrator], without [db], which is part of
    the world below.  [provider] is what [provider.getMigrations()] does:
    throw, or return a record from migration name to migration. *)
Record MigratorProps := mkProps {
  provider : E + gmap string Migration;
  migrationTableName : option string;
  allowUnorderedMigrations_prop : option bool;
}.

(** ** The world the migrator runs in

    Besides the database, the world records (as ghost state, never read by
    the migrator) which operations were invoked and which statements were
    issued against the log table, and how often the clock was read. *)
Inductive Event :=
  | Invoked (d : MigrationDirection) (n : string) (threw : option E)
  | ExecInsert (n ts : string)
  | ExecDelete (n : string).

Record World := mkWorld {
  db : Database;
  history : list Event;
  ticks : nat;
}.

(** [clock k] is what the [k]-th [new Date().toISOString()] returns. *)
Variable clock : nat → string.

(** ** The monad: state passing with exceptions *)

Inductive Outcome (A : Type) :=
  | Return (a : A)
  | Throw (t : Thrown).
Global Arguments Return {A} a.
Global Arguments Throw {A} t.

Definition M (A : Type) : Type := World → Outcome A * World.

Definition ret {A} (a : A) : M A := λ w, (Return a, w).

Definition throw {A} (t : Thrown) : M A := λ w, (Throw t, w).

Definition bind {A B} (m : M A) (k : A → M B) : M B :=
  λ w, match m w with
       | (Return a, w') => k a w'
       | (Throw t, w') => (Throw t, w')
       end.

(** [try { m } catch (error) { h error }] *)
Definition try_catch {A} (m : M A) (h : Thrown → M A) : M A :=
  λ w, match m w with
       | (Return a, w') => (Return a, w')
       | (Throw t, w') => h t w'
       end.

Notation "'let!' x ':=' m 'in' k" := (bind m (λ x, k))
  (at level 10, x name, m at level 100, k at level 200).
Notation "'run!' m 'in' k" := (bind m (λ _, k))
  (at level 10, m at level 100, k at level 200).

(** ** The driver ([bun:sqlite]) on the log table *)

Variable props : MigratorProps.

(** [DEFAULT_MIGRATION_TABLE], [DEFAULT_ALLOW_UNORDERED_MIGRATIONS] *)
Definition DEFAULT_MIGRATION_TABLE : string := "migrations".
Definition DEFAULT_ALLOW_UNORDERED_MIGRATIONS : bool := false.

(** [get migrationTable()] *)
Definition migrationTable : string :=
  default DEFAULT_MIGRATION_TABLE (migrationTableName props).

(** [get allowUnorderedMigrations()] *)
Definition allowUnorderedMigrations : bool :=
  default DEFAULT_ALLOW_UNORDERED_MIGRATIONS (allowUnorderedMigrations_prop props).

Definition no_such_table : Thrown :=
  JsError ("no such table: " +:+ migrationTable).

(** [create table if not exists ...], for a table name that SQLite
    accepts; the name is spliced into the statement as it is, and with a
    name that SQLite refuses the statement throws, which is not modelled. *)
Definition exec_create_table : M unit :=
  λ w, (Return tt,
        mkWorld (mkDatabase (Some (default ∅ (log (db w)))) (user (db w))
                            (begun (db w)))
                (history w) (ticks w)).

(** [select name from ... order by timestamp, name] *)
Definition query_names : M (list string) :=
  λ w, match log (db w) with
       | None => (Throw no_such_table, w)
       | Some rows => (Return (select_names rows), w)
       end.

(** [insert into ... (name, timestamp) values (?, ?)]; [name] is the primary
    key, so a second row of the same name is refused. *)
Definition exec_insert (n ts : string) : M unit :=
  λ w, let w1 := mkWorld (db w) (history w ++ [ExecInsert n ts]) (ticks w) in
       match log (db w) with
       | None => (Throw no_such_table, w1)
       | Some rows =>
           match rows !! n with
           | Some _ =>
               (Throw (JsError ("UNIQUE constraint failed: "
                                +:+ migrationTable +:+ ".name")), w1)
           | None =>
               (Return tt,
                mkWorld (mkDatabase (Some (<[n := ts]> rows)) (user (db w))
                                    (begun (db w)))
                        (history w1) (ticks w))
           end
       end.

(** [delete from ... where name = ?] *)
Definition exec_delete (n : string) : M unit :=
  λ w, let w1 := mkWorld (db w) (history w ++ [ExecDelete n]) (ticks w) in
       match log (db w) with
       | None => (Throw no_such_table, w1)
       | Some rows =>
           (Return tt,
            mkWorld (mkDatabase (Some (delete n rows)) (user (db w))
                                (begun (db w)))
                    (history w1) (ticks w))
       end.

(** What [COMMIT] and [ROLLBACK] throw in autocommit mode. *)
Definition cannot_commit : Thrown :=
  JsError "cannot commit - no transaction is active".
Definition cannot_rollback : Thrown :=
  JsError "cannot rollback - no transaction is active".

(** The name of the savepoint of the wrapper: [_bs3.] between two tabs. *)
Definition SAVEPOINT : string :=
  String (Ascii.ascii_of_nat 9) ("_bs3." +:+ String (Ascii.ascii_of_nat 9) "").

Definition no_such_savepoint : Thrown :=
  JsError ("no such savepoint: " +:+ SAVEPOINT).

(** [db.inTransaction] *)
Definition inTransaction (d : Database) : bool :=
  match begun d with
  | Some _ => true
  | None => false
  end.

(** [BEGIN IMMEDIATE], issued in autocommit mode. *)
Definition exec_begin : M unit :=
  λ w, (Return tt,
        mkWorld (mkDatabase (log (db w)) (user (db w))
                   (Some (mkTransaction (log (db w), user (db w)) None [])))
                (history w) (ticks w)).

(** [COMMIT] *)
Definition exec_commit : M unit :=
  λ w, match begun (db w) with
       | Some tx =>
           match violation tx with
           | Some message => (Throw (JsError message), w)
           | None =>
               (Return tt,
                mkWorld (mkDatabase (log (db w)) (user (db w)) None)
                        (history w) (ticks w))
           end
       | None => (Throw cannot_commit, w)
       end.

(** [ROLLBACK] *)
Definition exec_rollback : M unit :=
  λ w, match begun (db w) with
       | Some tx =>
           (Return tt,
            mkWorld (mkDatabase (began tx).1 (began tx).2 None)
                    (history w) (ticks w))
       | None => (Throw cannot_rollback, w)
       end.

(** [SAVEPOINT ...].  The wrapper issues it inside a transaction; in
    autocommit mode it starts one. *)
Definition exec_savepoint : M unit :=
  λ w, let here : Snapshot := (log (db w), user (db w)) in
       let tx :=
         match begun (db w) with
         | Some tx =>
             mkTransaction (began tx) (violation tx)
                           ((here, violation tx) :: savepoints tx)
         | None => mkTransaction here None [(here, None)]
         end in
       (Return tt,
        mkWorld (mkDatabase (log (db w)) (user (db w)) (Some tx))
                (history w) (ticks w)).

(** [RELEASE ...]: the latest savepoint of that name is released, when
    there is one.  It is not the outermost savepoint of a transaction that a
    [SAVEPOINT] started, whose release would commit. *)
Definition exec_release : M unit :=
  λ w, match begun (db w) with
       | Some tx =>
           match savepoints tx with
           | _ :: rest =>
               (Return tt,
                mkWorld (mkDatabase (log (db w)) (user (db w))
                           (Some (mkTransaction (began tx) (violation tx)
                                                rest)))
                        (history w) (ticks w))
           | [] => (Throw no_such_savepoint, w)
           end
       | None => (Throw no_such_savepoint, w)
       end.

(** [ROLLBACK TO ...]: the database goes back to the latest savepoint of
    that name, which stays. *)
Definition exec_rollback_to : M unit :=
  λ w, match begun (db w) with
       | Some tx =>
           match savepoints tx with
           | savepoint :: rest =>
               (Return tt,
                mkWorld (mkDatabase savepoint.1.1 savepoint.1.2
                           (Some (mkTransaction (began tx) savepoint.2
                                                (savepoint :: rest))))
                        (history w) (ticks w))
           | [] => (Throw no_such_savepoint, w)
           end
       | None => (Throw no_such_savepoint, w)
       end.

(** [db.transaction(f).immediate()], the wrapper of [bun:sqlite]:
<<
    if (db.inTransaction) { before = savepoint; after = release; undo = rollbackTo }
    else { before = begin; after = commit; undo = rollback }
    try { before.run(); const result = f(); after.run(); return result }
    catch (ex) {
      if (db.inTransaction) { undo.run(); if (undo !== rollback) after.run() }
      throw ex
    }
>>
    The ghost history and the clock are not part of what is rolled back. *)
Definition transaction {A} (f : M A) : M A :=
  λ w,
    if inTransaction (db w) then
      try_catch
        (run! exec_savepoint in
         let! result := f in
         run! exec_release in
         ret result)
        (λ ex w', if inTransaction (db w')
                  then (run! exec_rollback_to in
                        run! exec_release in
                        throw ex) w'
                  else throw ex w')
        w
    else
      try_catch
        (run! exec_begin in
         let! result := f in
         run! exec_commit in
         ret result)
        (λ ex w', if inTransaction (db w')
                  then (run! exec_rollback in throw ex) w'
                  else throw ex w')
        w.

(** [new Date().toISOString()] *)
Definition now : M string :=
  λ w, (Return (clock (ticks w)), mkWorld (db w) (history w) (S (ticks w))).

(** Calling a migration operation: the invocation and its outcome are
    recorded in the history. *)
Definition invoke (d : MigrationDirection) (n : string) (op : Operation)
  : M unit :=
  λ w, let '(r, d') := op (db w) in
       let w' := mkWorld d' (history w ++ [Invoked d n r]) (ticks w) in
       match r with
       | None => (Return tt, w')
       | Some e => (Throw (Foreign e), w')
       end.

(** What reading a property of [undefined] throws. *)
Definition TypeError : Thrown :=
  JsError "TypeError: undefined is not an object".

(** ** [class Migrator] *)

(** [resolveMigrations]: [Object.keys(allMigrations).sort()] and, per name,
    the migration under that key. *)
Definition resolveMigrations : M (list NamedMigration) :=
  match provider props with
  | inl e => throw (Foreign e)
  | inr allMigrations =>
      ret (omap (λ name, mkNamed name <$> allMigrations !! name)
                (sorted_keys allMigrations))
  end.

(** [getExecutedMigrations] *)
Definition getExecutedMigrations : M (list string) := query_names.

(** [getPendingMigrations] *)
Definition getPendingMigrations (migrations : list NamedMigration)
    (executedMigrations : list string) : list NamedMigration :=
  List.filter (λ migration, negb (includes executedMigrations (name migration)))
              migrations.

(** [ensureNoMissingMigrations] *)
Fixpoint ensureNoMissingMigrations (migrations : list NamedMigration)
    (executedMigrations : list string) : M unit :=
  match executedMigrations with
  | [] => ret tt
  | executed :: rest =>
      if negb (existsb (λ it, String.eqb (name it) executed) migrations)
      then throw (JsError ("corrupted migrations: previously executed migration "
                           +:+ executed +:+ " is missing"))
      else ensureNoMissingMigrations migrations rest
  end.

(** The body of the loop of [ensureMigrationsInOrder] from index [i] on;
    [rest] is what is left of [executedMigrations] from that index. *)
Fixpoint ensureMigrationsInOrder_from (migrations : list NamedMigration)
    (i : nat) (rest : list string) : M unit :=
  match rest with
  | [] => ret tt
  | executed_i :: rest' =>
      match migrations !! i with
      | None => throw TypeError
      | Some migration_i =>
          if negb (String.eqb (name migration_i) executed_i)
          then throw (JsError
                 ("corrupted migrations: expected previously executed migration "
                  +:+ executed_i +:+ " to be at index " +:+ pretty i +:+ " but "
                  +:+ name migration_i +:+ " was found in its place. New migrations must always have a name that comes alphabetically after the last executed migration."))
          else ensureMigrationsInOrder_from migrations (S i) rest'
      end
  end.

(** [ensureMigrationsInOrder] *)
Definition ensureMigrationsInOrder (migrations : list NamedMigration)
    (executedMigrations : list string) : M unit :=
  ensureMigrationsInOrder_from migrations 0 executedMigrations.

(** [getState] *)
Definition getState : M MigrationState :=
  let! migrations := resolveMigrations in
  let! executedMigrations := getExecutedMigrations in
  run! ensureNoMissingMigrations migrations executedMigrations in
  run! (if negb allowUnorderedMigrations
        then ensureMigrationsInOrder migrations executedMigrations
        else ret tt) in
  let pendingMigrations := getPendingMigrations migrations executedMigrations in
  ret (mkState migrations executedMigrations (at_last executedMigrations)
               pendingMigrations).

(** [ensureMigrationTableExists], [ensureMigrationTablesExists] *)
Definition ensureMigrationTableExists : M unit := exec_create_table.
Definition ensureMigrationTablesExists : M unit := ensureMigrationTableExists.

(** [for (let i = i0; i < i0 + n; i++) body], threading what the body
    assigns. *)
Fixpoint for_loop {V} (n i : nat) (body : nat → V → M V) (s : V) : M V :=
  match n with
  | 0 => ret s
  | S n' => let! s := body i s in for_loop n' (S i) body s
  end.

(** The body of the loop of [migrateUp] at index [i].  Calling [up] on an
    undefined [pendingMigrations[i]] throws inside the [try], and reading its
    [name] throws again inside the [catch]: a [TypeError] leaves the loop.
    [results[i] = ...] is an update in place, [i] being below
    [results.length]. *)
Definition migrateUp_body (state : MigrationState) (i : nat)
    (results : list MigrationResult) : M (list MigrationResult) :=
  match (pendingMigrations state !! i : option NamedMigration) with
  | None => throw TypeError
  | Some migration =>
      try_catch
        (run! invoke Up (name migration) (up migration) in
         let! timestamp := now in
         run! exec_insert (name migration) timestamp in
         ret (<[i := mkResult (name migration) Up Success]> results))
        (λ error,
           let results :=
             <[i := mkResult (name migration) Up Error]> results in
           throw (MigrationResultSetError (Some error) (Some results)))
  end.

(** [migrateUp] *)
Definition migrateUp (state : MigrationState) (step : Step)
  : M MigrationResultSet :=
  let migrationsToRun := slice0 step (pendingMigrations state) in
  let results :=
    (λ migration : NamedMigration,
       mkResult (name migration) Up NotExecuted) <$> migrationsToRun in
  let! results :=
    for_loop (length results) 0 (migrateUp_body state) results in
  ret (mkResultSet None (Some results)).

(** [array.find(it => it.name === name)] *)
Definition find_by_name (migrations : list NamedMigration) (n : string)
  : option NamedMigration :=
  List.find (λ it, String.eqb (name it) n) migrations.

(** [migrationsToRollback] of [migrateDown]; the non-null assertion after
    [find] is erased at run time, so an entry can be [undefined]. *)
Definition migrationsToRollback (state : MigrationState) (step : Step)
  : list (option NamedMigration) :=
  find_by_name (migrations state)
    <$> slice0 step (reverse (executedMigrations state)).

(** The [map] that builds the initial [results] of [migrateDown]: reading
    [migration.name] throws when the entry is [undefined]. *)
Fixpoint initial_down_results (toRollback : list (option NamedMigration))
  : M (list MigrationResult) :=
  match toRollback with
  | [] => ret []
  | None :: _ => throw TypeError
  | Some migration :: rest =>
      let! results := initial_down_results rest in
      ret (mkResult (name migration) Down NotExecuted :: results)
  end.

(** The body of the loop of [migrateDown] at index [i]. *)
Definition migrateDown_body (toRollback : list (option NamedMigration))
    (i : nat) (results : list MigrationResult) : M (list MigrationResult) :=
  match (toRollback !! i : option (option NamedMigration)) with
  | Some (Some migration) =>
      try_catch
        (match down migration with
         | Some down_op =>
             run! invoke Down (name migration) down_op in
             run! exec_delete (name migration) in
             ret (<[i := mkResult (name migration) Down Success]> results)
         | None => ret results
         end)
        (λ error,
           let results :=
             <[i := mkResult (name migration) Down Error]> results in
           throw (MigrationResultSetError (Some error) (Some results)))
  | _ => throw TypeError
  end.

(** [migrateDown] *)
Definition migrateDown (state : MigrationState) (step : Step)
  : M MigrationResultSet :=
  let toRollback := migrationsToRollback state step in
  let! results := initial_down_results toRollback in
  let! results :=
    for_loop (length results) 0 (migrateDown_body toRollback) results in
  ret (mkResultSet None (Some results)).

(** The closure [run] of [runMigrations]. *)
Definition run
    (getMigrationDirectionAndStep : MigrationState → MigrationDirection * Step)
  : M MigrationResultSet :=
  let! state := getState in
  if (length (migrations state) =? 0)%nat then ret (mkResultSet None (Some []))
  else
    let '(direction, step) := getMigrationDirectionAndStep state in
    if step_le_0 step then ret (mkResultSet None (Some []))
    else match direction with
         | Down => migrateDown state step
         | Up => migrateUp state step
         end.

(** [runMigrations] *)
Definition runMigrations
    (getMigrationDirectionAndStep : MigrationState → MigrationDirection * Step)
  : M MigrationResultSet :=
  transaction (run getMigrationDirectionAndStep).

(** [migrate] *)
Definition migrate
    (getMigrationDirectionAndStep : MigrationState → MigrationDirection * Step)
  : M MigrationResultSet :=
  try_catch
    (run! ensureMigrationTablesExists in
     runMigrations getMigrationDirectionAndStep)
    (λ error,
       match error with
       | MigrationResultSetError err res => ret (mkResultSet err res)
       | _ => ret (mkResultSet (Some error) None)
       end).

(** [migrateToLatest] *)
Definition migrateToLatest : M MigrationResultSet :=
  migrate (λ _, (Up, Infinity)).

(** The rows of the log table, none when there is no table. *)
Definition executedRows (d : Database) : gmap string string :=
  match log d with
  | Some rows => rows
  | None => ∅
  end.

(** [select name, timestamp from ...] *)
Definition query_rows : M (gmap string string) :=
  λ w, match log (db w) with
       | None => (Throw no_such_table, w)
       | Some rows => (Return rows, w)
       end.

(** [listed d]: whether [sqlite_master] lists the log table of [d] under
    exactly the configured string.  The statements of the migrator reach
    their table through SQLite's resolution of names, which also accepts a
    qualified name ([main.migrations]) or another case than the one the
    table was created in; [sqlite_master] then lists the table under
    another string.  What it lists is a parameter of the model. *)
Variable listed : Database → bool.

(** [doesTableExists(this.migrationTable)], a query that changes nothing.
    [sqlite_master] is taken to list no table under the configured name
    where the statements of the migrator find none. *)
Definition doesTableExists (d : Database) : bool :=
  match log d with
  | Some _ => listed d
  | None => false
  end.

(** [getMigrations]: every migration of the source, with the date of its
    row in the log if [doesTableExists] finds the table and the log has a
    row of that name.  [name] being the primary key, [find] gets the one
    row of that name. *)
Definition getMigrations : M (list MigrationInfo) :=
  λ w,
    (let! executedMigrations :=
       (if doesTableExists (db w) then query_rows else ret ∅) in
     let! migrations := resolveMigrations in
     ret ((λ m : NamedMigration,
             mkInfo (name m) (as_migration m)
                    (new_Date <$> executedMigrations !! name m))
            <$> migrations)) w.

End Migrator.

Global Arguments Thrown : clear implicits.
Global Arguments World : clear implicits.
Global Arguments Database : clear implicits.
Global Arguments Event : clear implicits.
Global Arguments Migration : clear implicits.
Global Arguments NamedMigration : clear implicits.
Global Arguments MigrationState : clear implicits.
Global Arguments MigratorProps : clear implicits.
Global Arguments MigrationResultSet : clear implicits.
Global Arguments Operation : clear implicits.
Global Arguments MigrationInfo : clear implicits.
Global Arguments Snapshot : clear implicits.
Global Arguments Savepoint : clear implicits.
Global Arguments Transaction : clear implicits.
Global Arguments Outcome : clear implicits.
Global Arguments M : clear implicits.

(** ** [FileMigrationProvider]

    The provider reads a folder and loads its migration files.  What is
    outside the program is a parameter: the listing [fs.readdirSync] returns
    and, per file name, what [require] of that file in the folder returns or
    throws.  Property names found only on prototypes are not modelled; the
    provider reads [default] and [up], which are own properties. *)

(** [s.endsWith(suffix)] *)
Fixpoint endsWith (s suffix : string) : bool :=
  String.eqb s suffix ||
  match s with
  | EmptyString => false
  | String _ s' => endsWith s' suffix
  end.

(** [s.lastIndexOf(search)]: the last position at which [search] occurs,
    [-1] when it does not occur. *)
Fixpoint lastIndexOf (s search : string) : Z :=
  match s with
  | EmptyString => if String.prefix search s then 0%Z else (-1)%Z
  | String _ s' =>
      let i := lastIndexOf s' search in
      if (0 <=? i)%Z then (i + 1)%Z
      else if String.prefix search s then 0%Z else (-1)%Z
  end.

(** [s.substring(0, e)]: a negative end is taken as [0], an end beyond the
    length as the length. *)
Definition substring0 (e : Z) (s : string) : string :=
  String.substring 0 (Z.to_nat e) s.

(** The condition under which [getMigrations] loads a file. *)
Definition is_migration_file (fileName : string) : bool :=
  endsWith fileName ".js" ||
  (endsWith fileName ".ts" && negb (endsWith fileName ".d.ts")) ||
  endsWith fileName ".mjs" ||
  (endsWith fileName ".mts" && negb (endsWith fileName ".d.mts")).

(** [fileName.substring(0, fileName.lastIndexOf("."))] *)
Definition migrationKey (fileName : string) : string :=
  substring0 (lastIndexOf fileName ".") fileName.

Section Provider.

(** [F]: function values.  [X]: what [readdirSync] and [require] throw. *)
Context {F X : Type}.

(** JavaScript values, as far as [typeof] and property reads tell them
    apart. *)
#[warnings="-register-all"]
Inductive Value :=
  | VUndefined
  | VNull
  | VBoolean (b : bool)
  | VNumber (z : Z)
  | VString (s : string)
  | VFunction (f : F) (properties : list (string * Value))
  | VObject (properties : list (string * Value)).

(** [typeof v] *)
Definition typeof (v : Value) : string :=
  match v with
  | VUndefined => "undefined"
  | VNull => "object"
  | VBoolean _ => "boolean"
  | VNumber _ => "number"
  | VString _ => "string"
  | VFunction _ _ => "function"
  | VObject _ => "object"
  end.

(** The first binding of [p] in a property list. *)
Fixpoint own_property (properties : list (string * Value)) (p : string)
  : Value :=
  match properties with
  | [] => VUndefined
  | (q, v) :: rest => if String.eqb q p then v else own_property rest p
  end.

(** [v.p] for a [v] that is neither [null] nor [undefined]. *)
Definition get_property (v : Value) (p : string) : Value :=
  match v with
  | VObject properties | VFunction _ properties => own_property properties p
  | _ => VUndefined
  end.

(** [v?.p] *)
Definition get_property_opt (v : Value) (p : string) : Value :=
  match v with
  | VUndefined | VNull => VUndefined
  | _ => get_property v p
  end.

(** [isObject] *)
Definition isObject (obj : Value) : bool :=
  String.eqb (typeof obj) "object" &&
  match obj with VNull => false | _ => true end.

(** [isFunction] *)
Definition isFunction (obj : Value) : bool :=
  String.eqb (typeof obj) "function".

(** [isMigration] *)
Definition isMigration (obj : Value) : bool :=
  isObject obj && isFunction (get_property obj "up").

(** [props.migrationFolder] as the program sees it. *)
Record MigrationFolder := mkFolder {
  readdirSync : X + list string;
  require : string → X + Value;
}.

Variable folder : MigrationFolder.

(** What the two-armed [if] of the loop stores for a loaded module: its
    [default] export if that is a migration, else the module itself if it is
    one, else nothing. *)
Definition exported_migration (migration : Value) : option Value :=
  if isMigration (get_property_opt migration "default")
  then Some (get_property_opt migration "default")
  else if isMigration migration then Some migration
  else None.

(** [record[key] = v] on a record that started as [{}], the record being
    the map of its own properties, those that [Object.keys] lists: the key
    [__proto__] names the prototype and gives the record no property of its
    own. *)
Definition set_property (record : gmap string Value) (key : string)
    (v : Value) : gmap string Value :=
  if String.eqb key "__proto__" then record else <[key := v]> record.

(** The loop of [FileMigrationProvider.getMigrations] over the rest of the
    listing; [migrations] is the record filled so far. *)
Fixpoint load_files (files : list string) (migrations : gmap string Value)
  : X + gmap string Value :=
  match files with
  | [] => inr migrations
  | fileName :: rest =>
      if is_migration_file fileName then
        match require folder fileName with
        | inl thrown => inl thrown
        | inr migration =>
            let migrationKey := migrationKey fileName in
            load_files rest
              match exported_migration migration with
              | Some exported => set_property migrations migrationKey exported
              | None => migrations
              end
        end
      else load_files rest migrations
  end.

(** [FileMigrationProvider.getMigrations] *)
Definition provider_getMigrations : X + gmap string Value :=
  match readdirSync folder with
  | inl thrown => inl thrown
  | inr files => load_files files ∅
  end.

(** What the file [fileName] puts under [key]: the migration it exports, if
    the file is loaded, has that key and exports one. *)
Definition contribution (key fileName : string) : option Value :=
  if is_migration_file fileName && String.eqb (migrationKey fileName) key
  then match require folder fileName with
       | inr migration => exported_migration migration
       | inl _ => None
       end
  else None.

End Provider.

Global Arguments Value : clear implicits.
Global Arguments MigrationFolder : clear implicits.

(** ** Vocabulary of the statements *)

(** A thrown value that is not a [MigrationResultSetError]. *)
Definition plain {E} (t : Thrown E) : Prop :=
  match t with
  | MigrationResultSetError _ _ => False
  | _ => True
  end.

(** An [Error] whose message starts with [corrupted migrations: ]. *)
Definition is_corrupted_error {E} (t : Thrown E) : bool :=
  match t with
  | JsError message => String.prefix "corrupted migrations: " message
  | _ => false
  end.

(** The migration an event of the history is about. *)
Definition event_name {E} (ev : Event E) : string :=
  match ev with
  | Invoked _ n _ => n
  | ExecInsert n _ => n
  | ExecDelete n => n
  end.

(** What an invocation recorded in the history threw, if anything. *)
Definition thrown_by {E} (ev : Event E) : option E :=
  match ev with
  | Invoked _ _ threw => threw
  | _ => None
  end.

(** No operation recorded in [evs] threw. *)
Definition quiet {E} (evs : list (Event E)) : Prop :=
  Forall (λ ev, thrown_by ev = None) evs.

(** If an operation recorded in [evs] threw, it is the last event, it is the
    operation of migration [n] in direction [d], and [t] is what it threw. *)
Definition blames {E} (evs : list (Event E)) (t : Thrown E)
    (d : MigrationDirection) (n : string) : Prop :=
  quiet evs ∨
  ∃ evs0 e, evs = evs0 ++ [Invoked d n (Some e)] ∧ quiet evs0 ∧ t = Foreign e.

(** What one iteration of a batch loop does at index [i] for a migration
    named [nm]: nothing at all when the migration is skipped; otherwise it
    either marks entry [i] [Success] and goes on, or marks it [Error] and
    throws the partial results with the cause. *)
Definition step_ok {U E} (dir : MigrationDirection) (nm : string)
    (skip : bool) (i : nat)
    (body : nat → list MigrationResult → M U E (list MigrationResult))
  : Prop :=
  ∀ results w,
    if skip then body i results w = (Return results, w)
    else
      ∃ w1 evs,
        ((quiet evs ∧
          body i results w =
            (Return (<[i := mkResult nm dir Success]> results), w1)) ∨
         (∃ t, blames evs t dir nm ∧
               body i results w =
                 (Throw (MigrationResultSetError (Some t)
                           (Some (<[i := mkResult nm dir Error]> results))),
                  w1))) ∧
        history w1 = history w ++ evs ∧
        Forall (λ ev, event_name ev = nm) evs.

(** What a batch loop over the indices [i .. i+n-1] leaves behind: [evs] are
    the events it added, [o] its outcome, [results] the list it started
    from. *)
Definition batch_outcome {E} (dir : MigrationDirection) (nm : nat → string)
    (skip : nat → bool) (i n : nat) (results : list MigrationResult)
    (evs : list (Event E)) (o : Outcome E (list MigrationResult)) : Prop :=
  Forall (λ ev, ∃ j, i ≤ j < i + n ∧ skip j = false ∧ event_name ev = nm j)
         evs ∧
  match o with
  | Return results' =>
      quiet evs ∧
      length results' = length results ∧
      (∀ j, i ≤ j < i + n → skip j = false →
            results' !! j = Some (mkResult (nm j) dir Success)) ∧
      (∀ j, j < i ∨ i + n ≤ j ∨ skip j = true → results' !! j = results !! j)
  | Throw t0 =>
      ∃ k t results',
        t0 = MigrationResultSetError (Some t) (Some results') ∧
        i ≤ k < i + n ∧ skip k = false ∧
        blames evs t dir (nm k) ∧
        length results' = length results ∧
        results' !! k = Some (mkResult (nm k) dir Error) ∧
        (∀ j, i ≤ j < k → skip j = false →
              results' !! j = Some (mkResult (nm j) dir Success)) ∧
        (∀ j, j < i ∨ k < j ∨ skip j = true → results' !! j = results !! j)
  end.

(** The name of candidate [j] of a batch, and whether it is skipped for
    having no [down]. *)
Definition name_at {U E} (cands : list (NamedMigration U E)) (j : nat)
  : string :=
  from_option name "" (cands !! j).

Definition skipped_at {U E} (cands : list (NamedMigration U E)) (j : nat)
  : bool :=
  from_option (λ m : NamedMigration U E, bool_decide (down m = None)) false
              (cands !! j).

(** The result set a batch ends with, returned or thrown. *)
Definition batch_result {E} (o : Outcome E (list MigrationResult))
  : Outcome E (MigrationResultSet E) :=
  match o with
  | Return l => Return (mkResultSet None (Some l))
  | Throw t => Throw t
  end.

(** The candidates of the batch that [run] starts in state [st] for a
    direction and a step, and which of them are skipped. *)
Definition batch_of {U E} (st : MigrationState U E) (dir : MigrationDirection)
    (step : Step) (cands : list (NamedMigration U E)) (skip : nat → bool)
  : Prop :=
  match dir with
  | Up => cands = slice0 step (pendingMigrations st) ∧ skip = (λ _, false)
  | Down =>
      migrationsToRollback st step = Some <$> cands ∧ skip = skipped_at cands
  end.

(** The entries a batch starts from. *)
Definition fresh_results {U E} (dir : MigrationDirection)
    (cands : list (NamedMigration U E)) : list MigrationResult :=
  (λ m, mkResult (name m) dir NotExecuted) <$> cands.


(** The database once the log table has been created if it was absent. *)
Definition with_log_table {U} (d : Database U) : Database U :=
  mkDatabase (Some (executedRows d)) (user d) (begun d).

(** An operation that leaves the log table alone. *)
Definition keeps_log {U E} (op : Operation U E) : Prop :=
  ∀ d, log (op d).2 = log d.

(** An operation that leaves the transaction it runs in alone: it neither
    commits nor rolls back, and it leaves the savepoints of the wrapper and
    the state of the deferred constraints as they were. *)
Definition keeps_transaction {U E} (op : Operation U E) : Prop :=
  ∀ d, begun (op d).2 = begun d.

(** Every operation of the source leaves the transaction alone. *)
Definition operations_keep_transaction {U E} (props : MigratorProps U E)
  : Prop :=
  ∀ all n m,
    provider props = inr all → all !! n = Some m →
    keeps_transaction (up m) ∧
    ∀ op, down m = Some op → keeps_transaction op.

(** The database inside the transaction of [runMigrations], after the
    [BEGIN] or the [SAVEPOINT] of the wrapper, and the world in which its
    body starts. *)
Definition in_transaction {U} (d : Database U) : Database U :=
  mkDatabase (log d) (user d)
    (Some match begun d with
          | Some tx =>
              mkTransaction (began tx) (violation tx)
                (((log d, user d), violation tx) :: savepoints tx)
          | None => mkTransaction (log d, user d) None []
          end).

Definition entered {U E} (w : World U E) : World U E :=
  mkWorld (in_transaction (db w)) (history w) (ticks w).

(** Whether the wrapper finds its savepoint: a transaction is active and
    has a savepoint of that name. *)
Definition has_savepoint {U} (d : Database U) : bool :=
  match begun d with
  | Some tx => bool_decide (savepoints tx ≠ [])
  | None => false
  end.

(** What the wrapper of [db.transaction] throws after its body has returned,
    the transaction having been entered at [d0] and the body having left
    [d1] behind: nothing, if the transaction can be committed or the
    savepoint released. *)
Definition commit_error {U E} (d0 d1 : Database U) : option (Thrown E) :=
  if inTransaction d0 then
    if has_savepoint d1 then None else Some no_such_savepoint
  else
    match begun d1 with
    | None => Some cannot_commit
    | Some tx => JsError <$> violation tx
    end.

(** What the wrapper throws in place of what its body threw: nothing,
    unless it was entered inside a transaction and, a transaction being
    active, cannot roll back to its savepoint. *)
Definition rollback_error {U E} (d0 d1 : Database U) : option (Thrown E) :=
  if inTransaction d0 && inTransaction d1 && negb (has_savepoint d1)
  then Some no_such_savepoint
  else None.

(** The database after that transaction.  With no transaction active any
    more, or without the savepoint, nothing is committed or undone.
    Otherwise, when the body returned ([ok]) and the commit does not fail,
    the transaction is committed, or the savepoint released; when the body
    threw, or the commit did, the database goes back to where the active
    transaction began, or to the savepoint, which is released. *)
Definition left_transaction {U} (d0 d1 : Database U) (ok : bool)
  : Database U :=
  match begun d1 with
  | None => d1
  | Some tx =>
      if inTransaction d0 then
        match savepoints tx with
        | [] => d1
        | savepoint :: rest =>
            if ok then
              mkDatabase (log d1) (user d1)
                (Some (mkTransaction (began tx) (violation tx) rest))
            else
              mkDatabase savepoint.1.1 savepoint.1.2
                (Some (mkTransaction (began tx) savepoint.2 rest))
        end
      else
        if ok && bool_decide (violation tx = None)
        then mkDatabase (log d1) (user d1) None
        else mkDatabase (began tx).1 (began tx).2 None
  end.

(** The rows that running the migrations [ms] one after the other adds to
    the log when the clock has been read [tick] times, and the log with these
    rows added. *)
Fixpoint stamp_rows {U E} (clock : nat → string)
    (ms : list (NamedMigration U E)) (tick : nat) : list Row :=
  match ms with
  | [] => []
  | m :: ms' => (name m, clock tick) :: stamp_rows clock ms' (S tick)
  end.

Fixpoint stamp {U E} (clock : nat → string) (ms : list (NamedMigration U E))
    (tick : nat) (rows : gmap string string) : gmap string string :=
  match ms with
  | [] => rows
  | m :: ms' => stamp clock ms' (S tick) (<[name m := clock tick]> rows)
  end.

(** The history of running the [up] of the migrations [ms] one after the
    other without a failure, the clock having been read [tick] times. *)
Fixpoint up_events {U E} (clock : nat → string)
    (ms : list (NamedMigration U E)) (tick : nat) : list (Event E) :=
  match ms with
  | [] => []
  | m :: ms' =>
      Invoked Up (name m) None :: ExecInsert (name m) (clock tick)
        :: up_events clock ms' (S tick)
  end.

(** The log with the rows of those of [ms] removed that have a [down]. *)
Fixpoint unlog {U E} (ms : list (NamedMigration U E))
    (rows : gmap string string) : gmap string string :=
  match ms with
  | [] => rows
  | m :: ms' =>
      unlog ms' match down m with
                | Some _ => delete (name m) rows
                | None => rows
                end
  end.

(** A clock that never runs backwards, timestamps being compared as the log
    compares them. *)
Definition monotone_clock (clock : nat → string) : Prop :=
  ∀ i j, i ≤ j → String.le (clock i) (clock j).

(** The world in which the transaction of [runMigrations] starts: the log
    table exists. *)
Definition bootstrapped {U E} (w : World U E) : World U E :=
  mkWorld (with_log_table (db w)) (history w) (ticks w).

(** ** Concrete scenarios

    The database besides the log is the list of tables created so far;
    operations throw strings. *)

Module Scenario.

Definition create (table : string) : Operation (list string) string :=
  λ d, (None, mkDatabase (log d) (user d ++ [table]) (begun d)).

Definition drop_table (table : string) : Operation (list string) string :=
  λ d, (None, mkDatabase (log d) (filter (λ t, t ≠ table) (user d)) (begun d)).


(** Commits the transaction it runs in and begins another, in which it
    creates a table. *)
Definition restarting (table : string) : Operation (list string) string :=
  λ d, (None,
        mkDatabase (log d) (user d ++ [table])
                   (Some (mkTransaction (log d, user d) None []))).

(** Creates part of its tables, then throws. *)
Definition failing (message : string) : Operation (list string) string :=
  λ d, (Some message, mkDatabase (log d) (user d ++ ["half_done"]) (begun d)).

Definition clock : nat → string := λ _, "2026-11-02T10:00:00.000Z".

(** [001_a] has no [down], [002_b] has one, [003_c] fails. *)
Definition source_abc : gmap string (Migration (list string) string) :=
  {[ "001_a" := mkMigration (create "a") None;
     "002_b" := mkMigration (create "b") (Some (drop_table "b"));
     "003_c" := mkMigration (failing "boom") None ]}.

Definition props_abc : MigratorProps (list string) string :=
  mkProps (inr source_abc) None None.

Definition source_posts : gmap string (Migration (list string) string) :=
  {[ "001_init" := mkMigration (create "users") None;
     "002_posts" := mkMigration (create "posts") None ]}.

Definition props_posts : MigratorProps (list string) string :=
  mkProps (inr source_posts) None None.



(** [001_a] commits and begins a transaction of its own, [002_b] fails. *)
Definition source_restart : gmap string (Migration (list string) string) :=
  {[ "001_a" := mkMigration (restarting "a") None;
     "002_b" := mkMigration (failing "boom") None ]}.

Definition props_restart : MigratorProps (list string) string :=
  mkProps (inr source_restart) None None.



(** Two names that [sort()] and the log order differently: U+FF5E, whose
    bytes are [EF BD 9E], and U+1F600, whose bytes are [F0 9F 98 80] and
    whose code units are surrogates. *)
Definition bytes (l : list nat) : string :=
  foldr (λ b s, String (Ascii.ascii_of_nat b) s) EmptyString l.

Definition fullwidth_tilde : string := bytes [239; 189; 158].
Definition grinning_face : string := bytes [240; 159; 152; 128].

Definition source_unicode : gmap string (Migration (list string) string) :=
  {[ fullwidth_tilde := mkMigration (create "tilde") None;
     grinning_face := mkMigration (create "face") None ]}.

Definition props_unicode : MigratorProps (list string) string :=
  mkProps (inr source_unicode) None None.

(** A database without a log table. *)
Definition world_fresh : World (list string) string :=
  mkWorld (mkDatabase None [] None) [] 0.


(** An empty log table, inside a transaction that the caller has begun. *)
Definition world_nested : World (list string) string :=
  mkWorld (mkDatabase (Some ∅) []
                      (Some (mkTransaction (Some ∅, []) None [])))
          [] 0.


(** [001_a] and [002_b] have run. *)
Definition world_ab : World (list string) string :=
  mkWorld (mkDatabase (Some {[ "001_a" := "2026-01-01T00:00:00.000Z";
                               "002_b" := "2026-01-02T00:00:00.000Z" ]})
                      ["a"; "b"] None) [] 0.

(** The log names a migration that [source_abc] does not have. *)
Definition world_orphan : World (list string) string :=
  mkWorld (mkDatabase (Some {[ "000_x" := "2026-01-01T00:00:00.000Z" ]}) []
                      None)
          [] 0.

(** [001_init] is logged with a timestamp later than the clock. *)
Definition world_late : World (list string) string :=
  mkWorld (mkDatabase (Some {[ "001_init" := "2030-01-01T00:00:00.000Z" ]})
                      ["users"] None) [] 0.

(** The state of an outcome of [getState], when it returned. *)
Definition state_of
    (o : Outcome string (MigrationState (list string) string)
         * World (list string) string)
  : MigrationState (list string) string :=
  match o.1 with
  | Return st => st
  | Throw _ => mkState [] [] None []
  end.

Definition state_ab : MigrationState (list string) string :=
  state_of (getState props_abc world_ab).

Definition to_latest : MigrationState (list string) string
                       → MigrationDirection * Step :=
  λ _, (Up, Infinity).

Definition down_two : MigrationState (list string) string
                      → MigrationDirection * Step :=
  λ _, (Down, Finite 2).

(** The batch [001_a], [002_b], [003_c] on a fresh database: [003_c] throws
    after the first two succeeded. *)
Definition rs_abc : MigrationResultSet string :=
  mkResultSet (Some (Foreign "boom"))
    (Some [mkResult "001_a" Up Success; mkResult "002_b" Up Success;
           mkResult "003_c" Up Error]).

Definition evs_abc : list (Event string) :=
  [Invoked Up "001_a" None; ExecInsert "001_a" "2026-11-02T10:00:00.000Z";
   Invoked Up "002_b" None; ExecInsert "002_b" "2026-11-02T10:00:00.000Z";
   Invoked Up "003_c" (Some "boom")].

Definition world_abc_failed : World (list string) string :=
  mkWorld (mkDatabase (Some ∅) [] None) evs_abc 2.






(** The batch [001_a], [002_b] of [source_restart] on [world_nested]: the
    row of [001_a] and what the two operations created are in the
    transaction that [001_a] began. *)
Definition world_restart : World (list string) string :=
  mkWorld (mkDatabase (Some {[ "001_a" := "2026-11-02T10:00:00.000Z" ]})
                      ["a"; "half_done"]
                      (Some (mkTransaction (Some ∅, []) None [])))
          [Invoked Up "001_a" None;
           ExecInsert "001_a" "2026-11-02T10:00:00.000Z";
           Invoked Up "002_b" (Some "boom")] 1.

(** Rolling back two steps from [world_ab]: [002_b] is undone, [001_a] has
    no [down]. *)
Definition rs_down : MigrationResultSet string :=
  mkResultSet None
    (Some [mkResult "002_b" Down Success; mkResult "001_a" Down NotExecuted]).

Definition evs_down : list (Event string) :=
  [Invoked Down "002_b" None; ExecDelete "002_b"].

Definition world_down : World (list string) string :=
  mkWorld (mkDatabase (Some {[ "001_a" := "2026-01-01T00:00:00.000Z" ]}) ["a"]
                      None)
          evs_down 0.

(** [migrateToLatest] with [source_posts] on a fresh database, and on the
    database with the late timestamp. *)
Definition rs_posts : MigrationResultSet string :=
  mkResultSet None
    (Some [mkResult "001_init" Up Success; mkResult "002_posts" Up Success]).

Definition world_posts : World (list string) string :=
  mkWorld (mkDatabase (Some {[ "001_init" := "2026-11-02T10:00:00.000Z";
                               "002_posts" := "2026-11-02T10:00:00.000Z" ]})
                      ["users"; "posts"] None)
          [Invoked Up "001_init" None;
           ExecInsert "001_init" "2026-11-02T10:00:00.000Z";
           Invoked Up "002_posts" None;
           ExecInsert "002_posts" "2026-11-02T10:00:00.000Z"] 2.

(** [001_init] has run, at a time before the clock; [migrateToLatest] then
    runs [002_posts]. *)
Definition world_init : World (list string) string :=
  mkWorld (mkDatabase (Some {[ "001_init" := "2026-01-01T00:00:00.000Z" ]})
                      ["users"] None) [] 0.

Definition rs_init : MigrationResultSet string :=
  mkResultSet None (Some [mkResult "002_posts" Up Success]).

Definition world_init_migrated : World (list string) string :=
  mkWorld (mkDatabase (Some {[ "001_init" := "2026-01-01T00:00:00.000Z";
                               "002_posts" := "2026-11-02T10:00:00.000Z" ]})
                      ["users"; "posts"] None)
          [Invoked Up "002_posts" None;
           ExecInsert "002_posts" "2026-11-02T10:00:00.000Z"] 1.

Definition world_late_migrated : World (list string) string :=
  mkWorld (mkDatabase (Some {[ "001_init" := "2030-01-01T00:00:00.000Z";
                               "002_posts" := "2026-11-02T10:00:00.000Z" ]})
                      ["users"; "posts"] None)
          [Invoked Up "002_posts" None;
           ExecInsert "002_posts" "2026-11-02T10:00:00.000Z"] 1.

(** [sqlite_master] lists every log table under the configured name. *)
Definition listed_as_configured : Database (list string) → bool := λ _, true.

(** A provider that throws. *)
Definition props_enoent : MigratorProps (list string) string :=
  mkProps (inl "ENOENT: no such file or directory") None None.

(** The states that [migrate] resolves on the three databases. *)
Definition state_fresh_abc : MigrationState (list string) string :=
  state_of (getState props_abc (bootstrapped world_fresh)).

Definition state_fresh_posts : MigrationState (list string) string :=
  state_of (getState props_posts (bootstrapped world_fresh)).

Definition state_posts : MigrationState (list string) string :=
  state_of (getState props_posts (bootstrapped world_posts)).

Definition up_five : MigrationState (list string) string
                     → MigrationDirection * Step :=
  λ _, (Up, Finite 5).

Definition named_a : NamedMigration (list string) string :=
  mkNamed "001_a" (mkMigration (create "a") None).

Definition named_b : NamedMigration (list string) string :=
  mkNamed "002_b" (mkMigration (create "b") (Some (drop_table "b"))).

(** A migration folder: a module with a default export, its declaration
    file, a module that exports [up] and [down] itself, and a file that is
    no module. *)
Definition module_init : Value unit :=
  VObject [("default", VObject [("up", VFunction () [])])].

Definition module_posts : Value unit :=
  VObject [("up", VFunction () []); ("down", VFunction () [])].

Definition files_posts : list string :=
  ["001_init.ts"; "001_init.d.ts"; "002_posts.js"; "README.md"].

Definition folder_posts : MigrationFolder unit string :=
  mkFolder (inr files_posts)
    (λ fileName,
       if String.eqb fileName "001_init.ts" then inr module_init
       else if String.eqb fileName "002_posts.js" then inr module_posts
       else inl "Cannot find module").

(** The same folder, where the other files can be required as well. *)
Definition folder_posts_lenient : MigrationFolder unit string :=
  mkFolder (inr files_posts)
    (λ fileName,
       if String.eqb fileName "001_init.ts" then inr module_init
       else if String.eqb fileName "002_posts.js" then inr module_posts
       else inr VNull).

Definition record_posts : gmap string (Value unit) :=
  {[ "001_init" := VObject [("up", VFunction () [])];
     "002_posts" := module_posts ]}.

(** A folder whose second module cannot be required. *)
Definition files_broken : list string :=
  ["001_init.ts"; "notes.txt"; "003_bad.mjs"; "002_posts.js"].

Definition folder_broken : MigrationFolder unit string :=
  mkFolder (inr files_broken) (require folder_posts).

End Scenario.

(** * Properties *)

Section Properties.

Context {U E : Type} (clock : nat → string) (props : MigratorProps U E).

Implicit Types (w : World U E) (t : Thrown E) (d : Database U).
Implicit Types (st : MigrationState U E) (ms : list (NamedMigration U E)).
Implicit Types (results : list MigrationResult) (n : string).

(** ** The two sorts *)

Lemma string_compare_refl (s : string) : String.compare s s = Eq.
Proof.
  induction s as [|a s IH]; simpl; [done|].
  unfold Ascii.compare. by rewrite N.compare_refl.
Qed.

Lemma row_le_alt (r1 r2 : Row) :
  row_le r1 r2 ↔
  String.ltb r1.2 r2.2 = true ∨ (r1.2 = r2.2 ∧ String.le r1.1 r2.1).
Proof.
  unfold row_le, row_leb, String.ltb, String.le.
  destruct (String.compare r1.2 r2.2) eqn:Hc.
  - apply String.compare_eq_iff in Hc. rewrite Is_true_true.
    split; [auto|]. intros [?|[_ ?]]; done.
  - split; auto.
  - split; [done|]. intros [?|[Heq _]]; [done|].
    rewrite Heq, string_compare_refl in Hc. done.
Qed.

Lemma string_ltb_le (s1 s2 : string) : String.ltb s1 s2 = true → String.le s1 s2.
Proof.
  unfold String.ltb, String.le, String.leb.
  destruct (String.compare s1 s2); simpl; done.
Qed.

Lemma string_ltb_irrefl_le (s1 s2 : string) :
  String.ltb s1 s2 = true → String.le s2 s1 → False.
Proof.
  unfold String.ltb, String.le, String.leb.
  rewrite (String.compare_antisym s2 s1).
  destruct (String.compare s1 s2); simpl; done.
Qed.

Lemma string_le_cases (s1 s2 : string) :
  String.le s1 s2 → s1 = s2 ∨ String.ltb s1 s2 = true.
Proof.
  unfold String.ltb, String.le, String.leb.
  destruct (String.compare s1 s2) eqn:Hc; simpl; [|by right|done].
  intros _. left. by apply String.compare_eq_iff.
Qed.

Lemma string_ltb_trans (s1 s2 s3 : string) :
  String.ltb s1 s2 = true → String.ltb s2 s3 = true → String.ltb s1 s3 = true.
Proof.
  intros H12 H23.
  assert (String.le s1 s3) as H13.
  { trans s2; by apply string_ltb_le. }
  destruct (string_le_cases _ _ H13) as [->|]; [|done].
  exfalso. eauto using string_ltb_irrefl_le, string_ltb_le.
Qed.

Global Instance row_le_total : Total row_le.
Proof.
  intros r1 r2. rewrite !row_le_alt.
  destruct (total String.le r1.2 r2.2) as [H|H];
    apply string_le_cases in H as [Heq|Hlt]; auto.
  - destruct (total String.le r1.1 r2.1); auto.
  - destruct (total String.le r1.1 r2.1); auto.
Qed.

Global Instance row_le_trans : Transitive row_le.
Proof.
  intros r1 r2 r3. rewrite !row_le_alt.
  intros [H12|[E12 N12]] [H23|[E23 N23]].
  - left. eauto using string_ltb_trans.
  - left. by rewrite <-E23.
  - left. by rewrite E12.
  - right. split; [congruence|by etrans].
Qed.

Lemma select_names_perm (rows : gmap string string) :
  select_names rows ≡ₚ (map_to_list rows).*1.
Proof. unfold select_names. by rewrite merge_sort_Permutation. Qed.

Lemma elem_of_select_names (rows : gmap string string) n :
  n ∈ select_names rows ↔ is_Some (rows !! n).
Proof.
  rewrite select_names_perm, list_elem_of_fmap. split.
  - intros [[n' ts] [-> H%elem_of_map_to_list]]. eauto.
  - intros [ts H]. exists (n, ts). by rewrite elem_of_map_to_list.
Qed.

Lemma NoDup_select_names (rows : gmap string string) :
  NoDup (select_names rows).
Proof. rewrite select_names_perm. apply NoDup_fst_map_to_list. Qed.

Lemma sorted_keys_perm {A} (record : gmap string A) :
  sorted_keys record ≡ₚ (map_to_list record).*1.
Proof. unfold sorted_keys. by rewrite merge_sort_Permutation. Qed.

Lemma elem_of_sorted_keys {A} (record : gmap string A) n :
  n ∈ sorted_keys record ↔ is_Some (record !! n).
Proof.
  rewrite sorted_keys_perm, list_elem_of_fmap. split.
  - intros [[n' x] [-> H%elem_of_map_to_list]]. eauto.
  - intros [x H]. exists (n, x). by rewrite elem_of_map_to_list.
Qed.

Lemma NoDup_sorted_keys {A} (record : gmap string A) :
  NoDup (sorted_keys record).
Proof. rewrite sorted_keys_perm. apply NoDup_fst_map_to_list. Qed.

Lemma code_unit_rank_involutive (b : Ascii.ascii) :
  code_unit_rank (code_unit_rank b) = b.
Proof. by destruct b as [[] [] [] [] [] [] [] []]. Qed.

Global Instance code_unit_key_inj : Inj (=) (=) code_unit_key.
Proof.
  intros s1. induction s1 as [|b1 s1 IH]; intros [|b2 s2]; simpl; try done.
  intros [= Hb Hs]. f_equal; [|by apply IH].
  by rewrite <-(code_unit_rank_involutive b1), Hb, code_unit_rank_involutive.
Qed.

Global Instance code_unit_le_po : PartialOrder code_unit_le.
Proof.
  unfold code_unit_le. split; [split|].
  - by intros s.
  - intros s1 s2 s3 ? ?. by trans (code_unit_key s2).
  - intros s1 s2 ? ?. by apply (inj code_unit_key), (anti_symm String.le).
Qed.

Global Instance code_unit_le_total : Total code_unit_le.
Proof. intros s1 s2. apply (total String.le). Qed.

Lemma Sorted_sorted_keys {A} (record : gmap string A) :
  Sorted code_unit_le (sorted_keys record).
Proof. apply (Sorted_merge_sort _). Qed.

(** ** Array helpers *)

Lemma includes_spec (l : list string) (x : string) :
  includes l x = true ↔ x ∈ l.
Proof.
  induction l as [|y l IH]; simpl.
  - rewrite elem_of_nil. split; [done|tauto].
  - rewrite elem_of_cons, <-IH.
    destruct (String.eqb_spec y x); intuition congruence.
Qed.

Lemma existsb_name ms n :
  existsb (λ it, String.eqb (name it) n) ms = true ↔ n ∈ name <$> ms.
Proof.
  induction ms as [|m ms IH]; simpl.
  - rewrite elem_of_nil. split; [done|tauto].
  - rewrite elem_of_cons, orb_true_iff, IH.
    destruct (String.eqb_spec (name m) n); intuition congruence.
Qed.

Lemma find_by_name_Some ms n :
  n ∈ name <$> ms →
  ∃ m, find_by_name ms n = Some m ∧ name m = n ∧ m ∈ ms.
Proof.
  unfold find_by_name. induction ms as [|m ms IH]; simpl.
  - by rewrite elem_of_nil.
  - rewrite elem_of_cons. intros Hn.
    destruct (String.eqb_spec (name m) n) as [Heq|Hne].
    + exists m. rewrite elem_of_cons. auto.
    + destruct Hn as [?|Hn]; [congruence|].
      destruct (IH Hn) as (m' & ? & ? & ?). exists m'.
      rewrite elem_of_cons. auto.
Qed.

Lemma getPendingMigrations_filter ms (ex : list string) :
  getPendingMigrations ms ex = filter (λ m, name m ∉ ex) ms.
Proof.
  unfold getPendingMigrations. induction ms as [|m ms IH]; simpl; [done|].
  rewrite filter_cons, IH.
  destruct (includes ex (name m)) eqn:Hin; simpl.
  - apply includes_spec in Hin. by rewrite decide_False by auto.
  - rewrite decide_True; [done|]. intros Hin'%includes_spec. congruence.
Qed.

(** ** State resolution *)

Local Abbreviation resolved all :=
  (omap (λ n, mkNamed n <$> all !! n) (sorted_keys all)).

Lemma omap_named_names (all : gmap string (Migration U E)) (l : list string) :
  Forall (λ n, is_Some (all !! n)) l →
  name <$> omap (λ n, mkNamed n <$> all !! n) l = l.
Proof.
  induction 1 as [|n l [m Hm] _ IH]; simpl; [done|].
  rewrite Hm. csimpl. by rewrite IH.
Qed.

Lemma resolved_names (all : gmap string (Migration U E)) :
  name <$> resolved all = sorted_keys all.
Proof.
  apply omap_named_names, Forall_forall. intros n. apply elem_of_sorted_keys.
Qed.

Lemma resolved_lookup (all : gmap string (Migration U E)) m :
  m ∈ resolved all → all !! name m = Some (as_migration m).
Proof.
  rewrite list_elem_of_omap. intros (n & _ & Hm).
  destruct (all !! n) eqn:Hn; simplify_eq/=. done.
Qed.

Lemma ensureNoMissingMigrations_cases ms (ex : list string) w :
  (ex ⊆ name <$> ms ∧ ensureNoMissingMigrations ms ex w = (Return tt, w)) ∨
  (¬ ex ⊆ name <$> ms ∧
   ∃ t, ensureNoMissingMigrations ms ex w = (Throw t, w) ∧
        is_corrupted_error t = true).
Proof.
  induction ex as [|n ex IH]; simpl.
  - left. split; [|done]. intros ?. by rewrite elem_of_nil.
  - destruct (existsb _ ms) eqn:Hn; simpl.
    + apply existsb_name in Hn. destruct IH as [[Hsub ->]|[Hsub IH]].
      * left. split; [|done]. intros x. rewrite elem_of_cons.
        intros [->|?]; auto.
      * right. split; [|done]. intros Hsub'. apply Hsub. intros x Hx.
        apply Hsub'. rewrite elem_of_cons. auto.
    + right. split.
      * intros Hsub. assert (n ∈ name <$> ms) as Hin%existsb_name.
        { apply Hsub. rewrite elem_of_cons. auto. }
        congruence.
      * eexists. split; [done|]. done.
Qed.

Lemma ensureMigrationsInOrder_from_cases ms i (rest : list string) w :
  (take (length rest) (drop i (name <$> ms)) = rest ∧
   ensureMigrationsInOrder_from ms i rest w = (Return tt, w)) ∨
  (take (length rest) (drop i (name <$> ms)) ≠ rest ∧
   ∃ t, ensureMigrationsInOrder_from ms i rest w = (Throw t, w) ∧ plain t ∧
        (i + length rest ≤ length ms → is_corrupted_error t = true)).
Proof.
  revert i. induction rest as [|n rest IH]; intros i; simpl.
  - left. by rewrite take_0.
  - destruct (ms !! i) as [m|] eqn:Hm.
    + assert (drop i (name <$> ms) = name m :: drop (S i) (name <$> ms)) as ->.
      { apply drop_S. by rewrite list_lookup_fmap, Hm. }
      simpl. destruct (String.eqb_spec (name m) n) as [->|Hne]; simpl.
      * destruct (IH (S i)) as [[Heq ->]|[Hne (t & -> & ? & Hc)]].
        -- left. by rewrite Heq.
        -- right. split; [congruence|]. exists t. split_and!; [done..|].
           intros. apply Hc. lia.
      * right. split; [congruence|]. eexists. split_and!; done.
    + right. rewrite drop_ge by (rewrite length_fmap; by apply lookup_ge_None).
      rewrite take_nil. split; [done|]. eexists. split_and!; [done..|].
      apply lookup_ge_None in Hm. lia.
Qed.

(** What [getState] does on every input: it never changes the world, it
    throws what the provider or the driver throws, a corrupted-migrations
    error when one of the two checks fails, and returns the state
    otherwise. *)
Lemma getState_cases w :
  match provider props with
  | inl e => getState props w = (Throw (Foreign e), w)
  | inr all =>
      match log (db w) with
      | None => getState props w = (Throw (no_such_table props), w)
      | Some rows =>
          let ms := resolved all in
          let ex := select_names rows in
          let valid :=
            ex ⊆ sorted_keys all ∧
            (allowUnorderedMigrations props = false →
             take (length ex) (sorted_keys all) = ex) in
          (valid ∧
           getState props w =
             (Return (mkState ms ex (at_last ex) (getPendingMigrations ms ex)),
              w)) ∨
          (¬ valid ∧
           ∃ t, getState props w = (Throw t, w) ∧ is_corrupted_error t = true)
      end
  end.
Proof.
  unfold getState, bind, resolveMigrations, getExecutedMigrations, query_names.
  destruct (provider props) as [e|all]; [reflexivity|].
  unfold ret, throw. cbv beta iota.
  destruct (log (db w)) as [rows|]; [|reflexivity].
  set (ms := resolved all). set (ex := select_names rows).
  destruct (ensureNoMissingMigrations_cases ms ex w)
    as [[Hsub ->]|[Hsub (t & -> & Ht)]].
  - unfold ms in Hsub. rewrite resolved_names in Hsub.
    destruct (allowUnorderedMigrations props) eqn:Hallow; simpl.
    + left. split; [|reflexivity]. split; [done|congruence].
    + unfold ensureMigrationsInOrder.
      destruct (ensureMigrationsInOrder_from_cases ms 0 ex w)
        as [[Heq ->]|[Hne (t & -> & _ & Ht)]].
      * left. unfold ms in Heq. rewrite resolved_names in Heq.
        split; [|reflexivity]. split; done.
      * right. unfold ms in Hne. rewrite resolved_names in Hne. split.
        -- intros [_ Hord]. by apply Hne, Hord.
        -- exists t. split; [done|]. apply Ht. simpl.
           rewrite <-(length_fmap name ms). unfold ms.
           rewrite resolved_names. apply submseteq_length.
           apply NoDup_submseteq; [apply NoDup_select_names|done].
  - right. unfold ms in Hsub. rewrite resolved_names in Hsub. split.
    + by intros [? _].
    + by exists t.
Qed.

Lemma getState_world w o w' : getState props w = (o, w') → w' = w.
Proof.
  intros Hget. pose proof (getState_cases w) as H.
  destruct (provider props); [congruence|].
  destruct (log (db w)); [|congruence].
  destruct H as [[_ H]|[_ (t & H & _)]]; congruence.
Qed.

Lemma getState_Return w st w' :
  getState props w = (Return st, w') →
  ∃ all rows,
    provider props = inr all ∧ log (db w) = Some rows ∧
    migrations st = resolved all ∧
    executedMigrations st = select_names rows ∧
    lastMigration st = at_last (select_names rows) ∧
    pendingMigrations st =
      getPendingMigrations (migrations st) (executedMigrations st) ∧
    select_names rows ⊆ sorted_keys all ∧
    (allowUnorderedMigrations props = false →
     take (length (select_names rows)) (sorted_keys all) = select_names rows).
Proof.
  intros Hget. pose proof (getState_cases w) as H.
  destruct (provider props) as [|all]; [congruence|].
  destruct (log (db w)) as [rows|]; [|congruence].
  destruct H as [[[Hsub Hord] H]|[_ (t & H & _)]]; [|congruence].
  rewrite H in Hget. simplify_eq. exists all, rows. split_and!; done.
Qed.

Lemma getState_Throw w t w' : getState props w = (Throw t, w') → plain t.
Proof.
  intros Hget. pose proof (getState_cases w) as H.
  destruct (provider props) as [|all];
    [rewrite H in Hget; by simplify_eq|].
  destruct (log (db w)) as [rows|]; [|rewrite H in Hget; by simplify_eq].
  destruct H as [[_ H]|[_ (t' & H & Ht)]]; [congruence|].
  rewrite H in Hget. simplify_eq. by destruct t.
Qed.

(** The names of the migrations of a resolved state are distinct and in
    ascending order; the executed names are distinct and among them. *)
Lemma getState_names w st w' :
  getState props w = (Return st, w') →
  NoDup (name <$> migrations st) ∧
  Sorted code_unit_le (name <$> migrations st) ∧
  NoDup (executedMigrations st) ∧
  executedMigrations st ⊆ name <$> migrations st.
Proof.
  intros (all & rows & _ & _ & -> & -> & _ & _ & Hsub & _)%getState_Return.
  rewrite resolved_names.
  eauto using NoDup_sorted_keys, Sorted_sorted_keys, NoDup_select_names.
Qed.

(** ** Pending migrations and rollback candidates *)

(** C9: in every state that [getState] returns, [pendingMigrations] is the
    name-sorted [migrations] list with exactly the entries removed whose name
    occurs in [executedMigrations], in the order of [migrations]; the names
    are sorted as [sort()] sorts them, by UTF-16 code unit. *)
Theorem pendingMigrations_is_migrations_minus_executed w st w' :
  getState props w = (Return st, w') →
  pendingMigrations st =
    filter (λ m, name m ∉ executedMigrations st) (migrations st) ∧
  sublist (pendingMigrations st) (migrations st) ∧
  (∀ m, m ∈ pendingMigrations st ↔
        m ∈ migrations st ∧ name m ∉ executedMigrations st) ∧
  Sorted code_unit_le (name <$> migrations st).
Proof.
  intros Hget. pose proof (getState_names _ _ _ Hget) as (_ & Hsorted & _ & _).
  apply getState_Return in Hget
    as (all & rows & _ & _ & Hms & Hex & _ & -> & _ & _).
  rewrite getPendingMigrations_filter. split_and!; [done| |  |done].
  - apply sublist_filter.
  - intros m. rewrite list_elem_of_filter. tauto.
Qed.

Lemma slice0_subseteq {A} (step : Step) (l : list A) : slice0 step l ⊆ l.
Proof.
  destruct step as [z|]; simpl; [|done].
  destruct (z <? 0)%Z; apply subseteq_take.
Qed.

Lemma find_all_by_name ms (l : list string) :
  l ⊆ name <$> ms →
  ∃ cands, find_by_name ms <$> l = Some <$> cands ∧
           name <$> cands = l ∧ Forall (λ m, m ∈ ms) cands.
Proof.
  induction l as [|n l IH]; intros Hsub.
  - by exists [].
  - destruct IH as (cands & Hfind & Hnames & Hin).
    { intros x Hx. apply Hsub. rewrite elem_of_cons. auto. }
    destruct (find_by_name_Some ms n) as (m & Hm & <- & ?).
    { apply Hsub. rewrite elem_of_cons. auto. }
    exists (m :: cands). csimpl. rewrite Hfind, Hm, Hnames. auto.
Qed.

Lemma initial_down_results_Some (cands : list (NamedMigration U E)) w :
  initial_down_results (Some <$> cands) w =
    (Return ((λ m, mkResult (name m) Down NotExecuted) <$> cands), w).
Proof.
  induction cands as [|m cands IH]; csimpl; [done|].
  unfold bind. by rewrite IH.
Qed.

(** C10: in a state that passed resolution every executed name is found in
    [state.migrations], so no entry of [migrationsToRollback] is undefined
    and building the initial results of a Down batch does not throw. *)
Theorem rollback_lookup_is_defined w st w' (step : Step) :
  getState props w = (Return st, w') →
  (∀ n, n ∈ executedMigrations st →
        ∃ m, find_by_name (migrations st) n = Some m ∧ name m = n ∧
             m ∈ migrations st) ∧
  Forall is_Some (migrationsToRollback st step) ∧
  (∀ w1, ∃ results,
     initial_down_results (migrationsToRollback st step) w1
       = (Return results, w1)).
Proof.
  intros (_ & _ & _ & Hsub)%getState_names. split_and!.
  - intros n Hn. by apply find_by_name_Some, Hsub.
  - unfold migrationsToRollback. apply Forall_fmap, Forall_forall.
    intros n Hn%slice0_subseteq. rewrite elem_of_reverse in Hn. simpl.
    destruct (find_by_name_Some (migrations st) n) as (m & -> & _); eauto.
  - intros w1. unfold migrationsToRollback.
    destruct (find_all_by_name (migrations st)
                (slice0 step (reverse (executedMigrations st))))
      as (cands & -> & _).
    { intros n Hn%slice0_subseteq. rewrite elem_of_reverse in Hn. auto. }
    eexists. apply initial_down_results_Some.
Qed.


(** ** Histories *)

Lemma quiet_app (evs1 evs2 : list (Event E)) :
  quiet (evs1 ++ evs2) ↔ quiet evs1 ∧ quiet evs2.
Proof. apply Forall_app. Qed.

Lemma blames_app (evs1 evs2 : list (Event E)) t dir n :
  quiet evs1 → blames evs2 t dir n → blames (evs1 ++ evs2) t dir n.
Proof.
  intros Hq [Hq2|(evs0 & e & -> & Hq0 & ->)].
  - left. by apply quiet_app.
  - right. exists (evs1 ++ evs0), e. rewrite (assoc_L (++)).
    split_and!; [done| |done]. by apply quiet_app.
Qed.

Lemma blames_last (evs : list (Event E)) t dir n pre ev post :
  blames evs t dir n →
  evs = pre ++ ev :: post →
  is_Some (thrown_by ev) →
  post = [] ∧ quiet pre ∧ ∃ e, ev = Invoked dir n (Some e) ∧ t = Foreign e.
Proof.
  intros [Hq|(evs0 & e & -> & Hq0 & ->)] Hevs [e' He']; unfold quiet in *.
  - subst evs. apply Forall_app in Hq as [_ Hq].
    apply Forall_cons in Hq as [Hq _]. congruence.
  - destruct post as [|y post _] using rev_ind.
    + apply app_inj_tail in Hevs as [-> <-]. eauto.
    + rewrite app_comm_cons, (assoc_L (++)) in Hevs.
      apply app_inj_tail in Hevs as [-> _].
      apply Forall_app in Hq0 as [_ Hq].
      apply Forall_cons in Hq as [Hq _]. congruence.
Qed.

(** ** Batch loops *)

Lemma for_loop_batch dir (nm : nat → string) (skip : nat → bool)
    (body : nat → list MigrationResult → M U E (list MigrationResult))
    (n i : nat) results w o w' :
  (∀ j, i ≤ j < i + n → step_ok dir (nm j) (skip j) j body) →
  i + n ≤ length results →
  for_loop n i body results w = (o, w') →
  ∃ evs, history w' = history w ++ evs ∧
         batch_outcome dir nm skip i n results evs o.
Proof.
  unfold batch_outcome.
  revert i results w. induction n as [|n IH]; intros i results w Hbody Hlen.
  - simpl. intros [= <- <-]. exists []. rewrite (right_id_L [] (++)).
    split; [done|]. split; [by constructor|]. split_and!; try done.
    + by constructor.
    + intros; lia.
  - simpl. unfold bind.
    pose proof (Hbody i ltac:(lia) results w) as Hi.
    assert (∀ j, S i ≤ j < S i + n → step_ok dir (nm j) (skip j) j body)
      as Hbody' by (intros; apply Hbody; lia).
    destruct (skip i) eqn:Hskip.
    + rewrite Hi. intros Hloop.
      destruct (IH (S i) results w Hbody' ltac:(lia) Hloop)
        as (evs & Hh & Hev & Ho).
      exists evs. split; [done|]. split.
      { eapply Forall_impl; [exact Hev|]. intros ev (j & ? & ? & ?).
        exists j. split_and!; (done || lia). }
      destruct o as [results'|t0].
      * destruct Ho as (Hq & Hl & Hs & Hu). split_and!; [done..| |].
        -- intros j Hj Hsk. apply Hs; [|done].
           destruct (decide (j = i)); [congruence|lia].
        -- intros j Hj. apply Hu.
           destruct (decide (j = i)) as [->|]; [lia|].
           destruct Hj as [?|[?|?]]; [left|right; left|right; right]; try done; lia.
      * destruct Ho as (k & t & results' & -> & Hk & Hsk & Hb & Hl & He & Hs & Hu).
        exists k, t, results'. split_and!; try done; try lia.
        -- intros j Hj Hskj. apply Hs; [|done].
           destruct (decide (j = i)); [congruence|lia].
        -- intros j Hj. apply Hu.
           destruct (decide (j = i)) as [->|]; [lia|].
           destruct Hj as [?|[?|?]]; [left|right; left|right; right]; try done; lia.
    + destruct Hi as (w1 & evs1 & [[Hq1 ->]|(t & Hb1 & ->)] & Hh1 & Hn1).
      * intros Hloop.
        destruct (IH (S i) (<[i := mkResult (nm i) dir Success]> results) w1
                    Hbody' ltac:(rewrite length_insert; lia) Hloop)
          as (evs & Hh & Hev & Ho).
        exists (evs1 ++ evs). split.
        { by rewrite Hh, Hh1, (assoc_L (++)). }
        split.
        { apply Forall_app. split.
          - eapply Forall_impl; [exact Hn1|]. intros ev ?.
            exists i. split_and!; (done || lia).
          - eapply Forall_impl; [exact Hev|]. intros ev (j & ? & ? & ?).
            exists j. split_and!; (done || lia). }
        destruct o as [results'|t0].
        -- destruct Ho as (Hq & Hl & Hs & Hu).
           rewrite length_insert in Hl. split_and!; [by apply quiet_app|done| |].
           ++ intros j Hj Hsk. destruct (decide (j = i)) as [->|].
              ** rewrite Hu by lia. apply list_lookup_insert_eq. lia.
              ** apply Hs; [lia|done].
           ++ intros j Hj. destruct (decide (j = i)) as [->|].
              { destruct Hj as [?|[?|?]]; [lia|lia|congruence]. }
              rewrite Hu, list_lookup_insert_ne; [done|done|].
              destruct Hj as [?|[?|?]]; [left|right; left|right; right]; try done; lia.
        -- destruct Ho as (k & t & results' & -> & Hk & Hsk & Hb & Hl & He & Hs & Hu).
           rewrite length_insert in Hl.
           exists k, t, results'. split_and!; try done; try lia.
           ++ by apply blames_app.
           ++ intros j Hj Hskj. destruct (decide (j = i)) as [->|].
              ** rewrite Hu by lia. apply list_lookup_insert_eq. lia.
              ** apply Hs; [lia|done].
           ++ intros j Hj. destruct (decide (j = i)) as [->|].
              { destruct Hj as [?|[?|?]]; [lia|lia|congruence]. }
              rewrite Hu, list_lookup_insert_ne; [done|done|].
              destruct Hj as [?|[?|?]]; [left|right; left|right; right]; try done; lia.
      * intros [= <- <-]. exists evs1. split; [done|]. split.
        { eapply Forall_impl; [exact Hn1|]. intros ev ?.
          exists i. split_and!; (done || lia). }
        exists i, t, (<[i := mkResult (nm i) dir Error]> results).
        rewrite length_insert. split_and!; try done; try lia.
        -- apply list_lookup_insert_eq. lia.
        -- intros j Hj. destruct (decide (j = i)) as [->|].
           { destruct Hj as [?|[?|?]]; [lia|lia|congruence]. }
           by rewrite list_lookup_insert_ne.
Qed.

Local Ltac step_events evs tac :=
  eexists _, evs; split_and!;
  [ tac | simpl; by rewrite <-?(assoc_L (++)) | by repeat constructor ].

Local Ltac step_returns := left; split; [by repeat constructor|done].

Local Ltac step_throws_quietly :=
  right; eexists; split; [left; by repeat constructor|done].

Local Ltac step_rethrows e :=
  right; exists (Foreign e); split; [|done];
  right; exists [], e; split_and!; [done|constructor|done].

(** One iteration of the loop of [migrateUp]. *)
Lemma migrateUp_body_ok st (j : nat) (m : NamedMigration U E) :
  pendingMigrations st !! j = Some m →
  step_ok Up (name m) false j (migrateUp_body clock props st).
Proof.
  intros Hm results w. unfold migrateUp_body. rewrite Hm.
  unfold try_catch, bind, invoke, now, exec_insert, ret, throw.
  destruct (up m (db w)) as [[e|] d'] eqn:Hop; simpl.
  - step_events [Invoked Up (name m) (Some e)] ltac:(step_rethrows e).
  - destruct (log d') as [rows|] eqn:Hlog; simpl;
      [destruct (rows !! name m) eqn:Hrow; simpl|].
    + step_events [Invoked (E:=E) Up (name m) None;
                   ExecInsert (name m) (clock (ticks w))]
                  ltac:(step_throws_quietly).
    + step_events [Invoked (E:=E) Up (name m) None;
                   ExecInsert (name m) (clock (ticks w))]
                  ltac:(step_returns).
    + step_events [Invoked (E:=E) Up (name m) None;
                   ExecInsert (name m) (clock (ticks w))]
                  ltac:(step_throws_quietly).
Qed.

(** One iteration of the loop of [migrateDown]. *)
Lemma migrateDown_body_ok (toRollback : list (option (NamedMigration U E)))
    (j : nat) (m : NamedMigration U E) :
  toRollback !! j = Some (Some m) →
  step_ok Down (name m) (bool_decide (down m = None)) j
          (migrateDown_body props toRollback).
Proof.
  intros Hm results w. unfold migrateDown_body. rewrite Hm.
  destruct (down m) as [down_op|] eqn:Hdown.
  - rewrite bool_decide_eq_false_2 by done.
    unfold try_catch, bind, invoke, exec_delete, ret, throw.
    destruct (down_op (db w)) as [[e|] d'] eqn:Hop; simpl.
    + step_events [Invoked Down (name m) (Some e)] ltac:(step_rethrows e).
    + destruct (log d') as [rows|] eqn:Hlog; simpl.
      * step_events [Invoked (E:=E) Down (name m) None; ExecDelete (name m)]
                    ltac:(step_returns).
      * step_events [Invoked (E:=E) Down (name m) None; ExecDelete (name m)]
                    ltac:(step_throws_quietly).
  - by rewrite bool_decide_eq_true_2.
Qed.

Lemma slice0_take {A} (step : Step) (l : list A) :
  ∃ k, slice0 step l = take k l.
Proof.
  destruct step as [z|]; simpl.
  - destruct (z <? 0)%Z; eauto.
  - exists (length l). by rewrite take_ge.
Qed.

(** [migrateUp] as a batch over the first [step] pending migrations. *)
Lemma migrateUp_batch st (step : Step) w o w' :
  migrateUp clock props st step w = (o, w') →
  ∃ evs o',
    history w' = history w ++ evs ∧
    batch_outcome Up (name_at (slice0 step (pendingMigrations st)))
      (λ _, false) 0 (length (slice0 step (pendingMigrations st)))
      ((λ m, mkResult (name m) Up NotExecuted)
         <$> slice0 step (pendingMigrations st)) evs o' ∧
    o = batch_result o'.
Proof.
  unfold migrateUp, bind. set (cands := slice0 step (pendingMigrations st)).
  rewrite length_fmap.
  destruct (for_loop _ _ _ _ w) as [o' w1] eqn:Hloop.
  apply (for_loop_batch Up (name_at cands) (λ _, false)) in Hloop
    as (evs & Hh & Hb).
  - destruct o' as [l|t]; intros [= <- <-];
      (eexists evs, _; split_and!; [done|exact Hb|done]).
  - intros j [_ Hj]. simpl in Hj.
    apply lookup_lt_is_Some in Hj as [m Hm].
    unfold name_at. rewrite Hm. simpl. apply migrateUp_body_ok.
    unfold cands in Hm. destruct (slice0_take step (pendingMigrations st))
      as [k Hk]. rewrite Hk in Hm. by apply lookup_take_Some in Hm as [? _].
  - by rewrite length_fmap.
Qed.

(** [migrateDown] as a batch over its candidates. *)
Lemma migrateDown_batch st (step : Step)
    (cands : list (NamedMigration U E)) w o w' :
  migrationsToRollback st step = Some <$> cands →
  migrateDown props st step w = (o, w') →
  ∃ evs o',
    history w' = history w ++ evs ∧
    batch_outcome Down (name_at cands) (skipped_at cands) 0 (length cands)
      ((λ m, mkResult (name m) Down NotExecuted) <$> cands) evs o' ∧
    o = batch_result o'.
Proof.
  intros Hcands. unfold migrateDown, bind. rewrite Hcands.
  rewrite initial_down_results_Some, length_fmap.
  destruct (for_loop _ _ _ _ w) as [o' w1] eqn:Hloop.
  apply (for_loop_batch Down (name_at cands) (skipped_at cands)) in Hloop
    as (evs & Hh & Hb).
  - destruct o' as [l|t]; intros [= <- <-];
      (eexists evs, _; split_and!; [done|exact Hb|done]).
  - intros j [_ Hj]. simpl in Hj.
    apply lookup_lt_is_Some in Hj as [m Hm].
    unfold name_at, skipped_at. rewrite Hm. simpl.
    apply migrateDown_body_ok. by rewrite list_lookup_fmap, Hm.
  - by rewrite length_fmap.
Qed.

(** The statuses a batch started from all-[NotExecuted] entries ends with. *)
Lemma batch_outcome_fresh dir (nm : nat → string) (skip : nat → bool)
    (cands : list (NamedMigration U E)) (evs : list (Event E)) o :
  (∀ j m, cands !! j = Some m → nm j = name m) →
  batch_outcome dir nm skip 0 (length cands)
    ((λ m, mkResult (name m) dir NotExecuted) <$> cands) evs o →
  match o with
  | Return l =>
      quiet evs ∧ length l = length cands ∧
      ∀ j r, l !! j = Some r →
        r = mkResult (nm j) dir (if skip j then NotExecuted else Success)
  | Throw t0 =>
      ∃ k t l,
        t0 = MigrationResultSetError (Some t) (Some l) ∧
        k < length cands ∧ skip k = false ∧ blames evs t dir (nm k) ∧
        length l = length cands ∧
        ∀ j r, l !! j = Some r →
          r = mkResult (nm j) dir
                (if decide (j < k)
                 then (if skip j then NotExecuted else Success)
                 else if decide (j = k) then Error else NotExecuted)
  end.
Proof.
  intros Hnm [_ Ho].
  assert (∀ j r, ((λ m, mkResult (name m) dir NotExecuted) <$> cands) !! j
                   = Some r → r = mkResult (nm j) dir NotExecuted) as Hinit.
  { intros j r. rewrite list_lookup_fmap.
    destruct (cands !! j) as [m|] eqn:Hm; intros [= <-].
    by rewrite (Hnm _ _ Hm). }
  destruct o as [l|t0].
  - destruct Ho as (Hq & Hl & Hs & Hu). rewrite length_fmap in Hl.
    split_and!; [done..|]. intros j r Hr.
    assert (j < length cands) by (rewrite <-Hl; by eapply lookup_lt_Some).
    destruct (skip j) eqn:Hsk.
    + rewrite Hu in Hr by auto. by apply Hinit.
    + rewrite Hs in Hr by (done || lia). by simplify_eq.
  - destruct Ho as (k & t & l & -> & Hk & Hsk & Hb & Hl & He & Hs & Hu).
    rewrite length_fmap in Hl.
    exists k, t, l. split_and!; [done|lia|done..|]. intros j r Hr.
    assert (j < length cands) by (rewrite <-Hl; by eapply lookup_lt_Some).
    destruct (decide (j < k)); [destruct (skip j) eqn:Hskj|].
    + rewrite Hu in Hr by auto. by apply Hinit.
    + rewrite Hs in Hr by (done || lia). by simplify_eq.
    + destruct (decide (j = k)) as [->|].
      * rewrite He in Hr. by simplify_eq.
      * rewrite Hu in Hr by (left; lia) || (right; left; lia).
        by apply Hinit.
Qed.

(** ** Orchestration *)

(** What [run] does: resolution fails and nothing happened; or there is
    nothing to do; or one batch runs. *)
Lemma run_cases g w o w' :
  run clock props g w = (o, w') →
  (∃ t, getState props w = (Throw t, w) ∧ plain t ∧ o = Throw t ∧ w' = w) ∨
  (∃ st, getState props w = (Return st, w) ∧
     ((o = Return (mkResultSet None (Some [])) ∧ w' = w ∧
       (length (migrations st) = 0 ∨ step_le_0 (g st).2 = true)) ∨
      (∃ cands skip evs o',
         length (migrations st) ≠ 0 ∧ step_le_0 (g st).2 = false ∧
         batch_of st (g st).1 (g st).2 cands skip ∧
         history w' = history w ++ evs ∧
         batch_outcome (g st).1 (name_at cands) skip 0 (length cands)
           (fresh_results (g st).1 cands) evs o' ∧
         o = batch_result o'))).
Proof.
  unfold run, bind. destruct (getState props w) as [[st|t] w1] eqn:Hget.
  - pose proof (getState_world _ _ _ Hget) as ->. intros Hrun.
    right. exists st. split; [done|].
    destruct (Nat.eqb_spec (length (migrations st)) 0) as [|Hlen].
    { left. unfold ret in Hrun. simplify_eq. auto. }
    destruct (g st) as [dir step] eqn:Hg. simpl.
    destruct (step_le_0 step) eqn:Hstep.
    { left. unfold ret in Hrun. simplify_eq. auto. }
    right. destruct dir.
    + apply migrateUp_batch in Hrun as (evs & o' & Hh & Hb & ->).
      eexists _, _, evs, o'. split_and!; try done.
    + destruct (find_all_by_name (migrations st)
                  (slice0 step (reverse (executedMigrations st))))
        as (cands & Hcands & _).
      { intros n Hn%slice0_subseteq. rewrite elem_of_reverse in Hn.
        by apply (getState_names _ _ _ Hget). }
      apply (migrateDown_batch _ _ cands) in Hrun
        as (evs & o' & Hh & Hb & ->); [|done].
      eexists cands, _, evs, o'. split_and!; try done.
  - pose proof (getState_world _ _ _ Hget) as ->.
    intros [= <- <-]. left. exists t. split_and!; try done.
    by eapply getState_Throw.
Qed.

Lemma batch_outcome_Throw dir nm skip (i k : nat) results
    (evs : list (Event E)) t0 :
  batch_outcome dir nm skip i k results evs (Throw t0) →
  ∃ t l, t0 = MigrationResultSetError (Some t) (Some l).
Proof. intros (_ & j & t & l & -> & _). eauto. Qed.

(** The two checks of [getState] read nothing of the world. *)
Lemma ensureNoMissingMigrations_pure ms (ex : list string) w w0 :
  ensureNoMissingMigrations ms ex w =
    ((ensureNoMissingMigrations ms ex w0).1, w).
Proof.
  induction ex as [|n ex IH]; simpl; [done|].
  by destruct (negb (existsb _ ms)).
Qed.

Lemma ensureMigrationsInOrder_from_pure ms (i : nat) (rest : list string)
    w w0 :
  ensureMigrationsInOrder_from ms i rest w =
    ((ensureMigrationsInOrder_from ms i rest w0).1, w).
Proof.
  revert i. induction rest as [|n rest IH]; intros i; simpl; [done|].
  destruct (ms !! i) as [m|]; [|done].
  by destruct (negb (String.eqb (name m) n)).
Qed.

(** [getState] reads the log table and nothing else of the world. *)
Lemma getState_pure w w0 :
  log (db w) = log (db w0) →
  getState props w = ((getState props w0).1, w).
Proof.
  intros Hlog.
  unfold getState, bind, resolveMigrations, getExecutedMigrations,
    query_names, ret, throw.
  destruct (provider props) as [e|all]; [done|]. cbv beta iota.
  rewrite Hlog. destruct (log (db w0)) as [rows|]; [|done].
  rewrite (ensureNoMissingMigrations_pure _ _ w w0).
  destruct (ensureNoMissingMigrations _ _ w0) as [[[]|t] w0'] eqn:Hmiss;
    simpl; [|done].
  pose proof (ensureNoMissingMigrations_pure
                (omap (λ name, mkNamed name <$> all !! name)
                      (sorted_keys all))
                (select_names rows) w0 w0) as Hw0.
  rewrite Hmiss in Hw0. simpl in Hw0. injection Hw0 as ->.
  destruct (negb (allowUnorderedMigrations props)); [|done].
  unfold ensureMigrationsInOrder.
  rewrite (ensureMigrationsInOrder_from_pure _ _ _ w w0).
  destruct (ensureMigrationsInOrder_from _ _ _ w0) as [[[]|t] w0'];
    simpl; done.
Qed.

Lemma getState_entered w o :
  getState props (entered w) = (o, entered w) ↔ getState props w = (o, w).
Proof.
  rewrite (getState_pure (entered w) w) by done.
  destruct (getState props w) as [o' w'] eqn:Hget.
  pose proof (getState_world _ _ _ Hget) as ->. simpl.
  split; intros; by simplify_eq.
Qed.

Lemma left_transaction_entered (d : Database U) (ok : bool) :
  left_transaction d (in_transaction d) ok = d.
Proof.
  unfold left_transaction, in_transaction, inTransaction.
  destruct d as [lg u [[s v sp]|]]; simpl; by destruct ok.
Qed.

Lemma commit_error_entered (d : Database U) :
  commit_error (E:=E) d (in_transaction d) = None.
Proof.
  unfold commit_error, has_savepoint, in_transaction, inTransaction.
  by destruct d as [lg u [tx|]].
Qed.

Lemma rollback_error_entered (d : Database U) :
  rollback_error (E:=E) d (in_transaction d) = None.
Proof.
  unfold rollback_error, has_savepoint, in_transaction, inTransaction.
  by destruct d as [lg u [tx|]].
Qed.

Lemma ensureMigrationTablesExists_bootstrapped w :
  ensureMigrationTablesExists w = (Return tt, bootstrapped (U:=U) (E:=E) w).
Proof. reflexivity. Qed.

Lemma exec_savepoint_entered (w : World U E) :
  inTransaction (db w) = true → exec_savepoint w = (Return tt, entered w).
Proof.
  unfold inTransaction, exec_savepoint, entered, in_transaction.
  by destruct (begun (db w)).
Qed.

Lemma exec_begin_entered (w : World U E) :
  inTransaction (db w) = false → exec_begin w = (Return tt, entered w).
Proof.
  unfold inTransaction, exec_begin, entered, in_transaction.
  by destruct (begun (db w)).
Qed.

(** The wrapper of [db.transaction] in terms of its body, which starts in
    the world [entered w]. *)
Lemma transaction_cases {A} (f : M U E A) w :
  ∃ o w1,
    f (entered w) = (o, w1) ∧
    transaction f w =
      (match o with
       | Return a =>
           match commit_error (db w) (db w1) with
           | None => Return a
           | Some t => Throw t
           end
       | Throw t0 => Throw (default t0 (rollback_error (db w) (db w1)))
       end,
       mkWorld (left_transaction (db w) (db w1)
                  (match o with Return _ => true | Throw _ => false end))
               (history w1) (ticks w1)).
Proof.
  unfold transaction, left_transaction, commit_error, rollback_error,
    has_savepoint.
  destruct (inTransaction (db w)) eqn:Hin; unfold try_catch, bind.
  - rewrite exec_savepoint_entered by done.
    destruct (f (entered w)) as [[a|t] w1] eqn:Hf;
      eexists _, _; (split; [done|]);
      unfold exec_release, exec_rollback_to, ret, throw, inTransaction;
      destruct w1 as [[lg1 u1 [[s1 v1 [|sp1 rest1]]|]] h1 t1]; simpl; done.
  - rewrite exec_begin_entered by done.
    destruct (f (entered w)) as [[a|t] w1] eqn:Hf;
      eexists _, _; (split; [done|]);
      unfold exec_commit, exec_rollback, ret, throw, inTransaction;
      destruct w1 as [[lg1 u1 [[s1 [msg|] sp1]|]] h1 t1]; simpl; done.
Qed.

(** [migrate] in terms of [run]: the transaction wrapper commits what a
    returning [run] did, if it can, and throws if it cannot; it undoes what
    a throwing [run] did, if a transaction is still active, and throws if it
    cannot; and the handler of [migrate] turns what is thrown into a result
    set. *)
Lemma migrate_cases g w :
  ∃ o w1,
    run clock props g (entered (bootstrapped w)) = (o, w1) ∧
    migrate clock props g w =
      (Return match o with
              | Return rs =>
                  match commit_error (db (bootstrapped w)) (db w1) with
                  | None => rs
                  | Some t => mkResultSet (Some t) None
                  end
              | Throw t0 =>
                  match rollback_error (db (bootstrapped w)) (db w1) with
                  | Some t => mkResultSet (Some t) None
                  | None =>
                      match t0 with
                      | MigrationResultSetError err res => mkResultSet err res
                      | _ => mkResultSet (Some t0) None
                      end
                  end
              end,
       mkWorld (left_transaction (db (bootstrapped w)) (db w1)
                  (match o with Return _ => true | Throw _ => false end))
               (history w1) (ticks w1)).
Proof.
  destruct (transaction_cases (run clock props g) (bootstrapped w))
    as (o & w1 & Hrun & Htx).
  exists o, w1. split; [done|].
  unfold migrate, try_catch, bind, runMigrations.
  rewrite ensureMigrationTablesExists_bootstrapped, Htx.
  destruct o as [rs|t0].
  - unfold commit_error, has_savepoint.
    destruct (inTransaction _), (begun (db w1)) as [[s1 [msg|] sp1]|];
      simpl; try done; by case_bool_decide.
  - unfold rollback_error, has_savepoint.
    destruct (inTransaction _), (inTransaction (db w1)),
      (begun (db w1)) as [[s1 v1 sp1]|]; simpl; try by destruct t0.
    all: case_bool_decide; simpl; by destruct t0.
Qed.


(** C4: a result set returned by [migrate] has a results list, or an error
    and no results list; it never has neither. *)
Theorem migrate_result_has_results_or_error g w rs w' :
  migrate clock props g w = (Return rs, w') →
  is_Some (results rs) ∨ (is_Some (error rs) ∧ results rs = None).
Proof.
  destruct (migrate_cases g w) as (o & w1 & Hrun & ->).
  intros [= <- <-].
  apply run_cases in Hrun
    as [(t & _ & Hplain & -> & _)|(st & _ & [[-> _]|Hbatch])].
  - right. destruct (rollback_error _ _); simpl; [eauto|].
    destruct t; simpl; eauto. done.
  - destruct (commit_error _ _); simpl; eauto.
  - destruct Hbatch as (cands & skip & evs & o' & _ & _ & _ & _ & Hb & ->).
    destruct o' as [l|t0]; simpl.
    + destruct (commit_error _ _); simpl; eauto.
    + apply batch_outcome_Throw in Hb as (t & l & ->).
      destruct (rollback_error _ _); simpl; eauto.
Qed.

(** Every way [migrate] can end.  The batch runs from the world [entered
    (bootstrapped w)] to the world [w1], from which the transaction is
    left. *)
Lemma migrate_outcome g w rs w' :
  migrate clock props g w = (Return rs, w') →
  (∃ t, getState props (bootstrapped w) = (Throw t, bootstrapped w) ∧
        plain t ∧ rs = mkResultSet (Some t) None ∧ w' = bootstrapped w) ∨
  (∃ st, getState props (bootstrapped w) = (Return st, bootstrapped w) ∧
     ((rs = mkResultSet None (Some []) ∧ w' = bootstrapped w ∧
       (length (migrations st) = 0 ∨ step_le_0 (g st).2 = true)) ∨
      (∃ cands skip evs o' w1,
         length (migrations st) ≠ 0 ∧ step_le_0 (g st).2 = false ∧
         batch_of st (g st).1 (g st).2 cands skip ∧
         history w' = history w ++ evs ∧
         batch_outcome (g st).1 (name_at cands) skip 0 (length cands)
           (fresh_results (g st).1 cands) evs o' ∧
         run clock props g (entered (bootstrapped w))
           = (batch_result o', w1) ∧
         w' = mkWorld
                (left_transaction (db (bootstrapped w)) (db w1)
                   (match o' with Return _ => true | Throw _ => false end))
                (history w1) (ticks w1) ∧
         match o' with
         | Return l =>
             match commit_error (db (bootstrapped w)) (db w1) with
             | None => rs = mkResultSet None (Some l)
             | Some t => rs = mkResultSet (Some t) None
             end
         | Throw t0 =>
             ∃ t l,
               t0 = MigrationResultSetError (Some t) (Some l) ∧
               match rollback_error (db (bootstrapped w)) (db w1) with
               | None => rs = mkResultSet (Some t) (Some l)
               | Some t' => rs = mkResultSet (Some t') None
               end
         end))).
Proof.
  destruct (migrate_cases g w) as (o & w1 & Hrun & ->).
  intros [= <- <-]. pose proof Hrun as Hrun'.
  apply run_cases in Hrun
    as [(t & Hget & Hplain & -> & ->)|(st & Hget & [(-> & -> & ?)|Hbatch])].
  - left. exists t. apply (proj1 (getState_entered _ _)) in Hget.
    simpl. rewrite left_transaction_entered, rollback_error_entered.
    split_and!; [done..| |done].
    by destruct t.
  - right. exists st. apply (proj1 (getState_entered _ _)) in Hget.
    simpl. rewrite left_transaction_entered, commit_error_entered.
    split; [done|]. by left.
  - destruct Hbatch as (cands & skip & evs & o' & ? & ? & ? & Hh & Hb & ->).
    right. exists st. apply (proj1 (getState_entered _ _)) in Hget. split; [done|]. right.
    exists cands, skip, evs, o', w1. split_and!; try done.
    + by destruct o'.
    + destruct o' as [l|t0]; simpl in *; [by destruct (commit_error _ _)|].
      pose proof (batch_outcome_Throw _ _ _ _ _ _ _ _ Hb) as (t & l & ->).
      exists t, l. split; [done|]. by destruct (rollback_error _ _).
Qed.

Lemma name_at_lookup (cands : list (NamedMigration U E)) (j : nat) m :
  cands !! j = Some m → name_at cands j = name m.
Proof. unfold name_at. by intros ->. Qed.

(** ** Operations that leave the transaction alone *)

Lemma for_loop_invariant {V} (P : World U E → Prop)
    (body : nat → V → M U E V) (k i : nat) (s : V) w o w' :
  (∀ j s0 w0 o1 w1, body j s0 w0 = (o1, w1) → P w0 → P w1) →
  P w →
  for_loop k i body s w = (o, w') →
  P w'.
Proof.
  intros Hbody. revert i s w. induction k as [|k IH]; intros i s w Hw; simpl.
  - by intros [= <- <-].
  - unfold bind. destruct (body i s w) as [[s1|t] w1] eqn:Hstep.
    + apply IH. by eapply Hbody.
    + intros [= <- <-]. by eapply Hbody.
Qed.

Lemma find_by_name_elem ms n (m : NamedMigration U E) :
  find_by_name ms n = Some m → m ∈ ms.
Proof.
  unfold find_by_name. intros [H _]%find_some. by apply list_elem_of_In.
Qed.

Lemma initial_down_results_world
    (toRollback : list (option (NamedMigration U E))) w o w1 :
  initial_down_results toRollback w = (o, w1) → w1 = w.
Proof.
  revert o w1. induction toRollback as [|[m|] rest IH]; intros o w1; simpl.
  - by intros [= <- <-].
  - unfold bind. destruct (initial_down_results rest w) as [[l|t] w2] eqn:Hi;
      pose proof (IH _ _ eq_refl) as ->; unfold ret; by intros [= <- <-].
  - by intros [= <- <-].
Qed.

Lemma migrateUp_loop_keeps_transaction st (k i : nat) results w o w1 :
  (∀ m : NamedMigration U E,
     m ∈ pendingMigrations st → keeps_transaction (up m)) →
  for_loop k i (migrateUp_body clock props st) results w = (o, w1) →
  begun (db w1) = begun (db w).
Proof.
  intros Hkeep Hloop.
  apply (for_loop_invariant (λ w0, begun (db w0) = begun (db w))) in Hloop;
    [done|clear Hloop|done].
  intros j s0 w0 o1 w3. unfold migrateUp_body.
  destruct (pendingMigrations st !! j) as [m|] eqn:Hm;
    [|unfold throw; by intros [= <- <-]].
  unfold try_catch, bind, invoke, now, exec_insert, ret, throw.
  pose proof (Hkeep m ltac:(by eapply list_elem_of_lookup_2) (db w0))
    as Hop.
  destruct (up m (db w0)) as [[e|] d'] eqn:Hup; simpl in *.
  - intros [= <- <-]. simpl. congruence.
  - destruct (log d') as [rows|]; simpl;
      [destruct (rows !! name m); simpl|];
      intros [= <- <-]; simpl; congruence.
Qed.

Lemma migrateUp_keeps_transaction st (step : Step) w o w1 :
  (∀ m : NamedMigration U E,
     m ∈ pendingMigrations st → keeps_transaction (up m)) →
  migrateUp clock props st step w = (o, w1) →
  begun (db w1) = begun (db w).
Proof.
  intros Hkeep. unfold migrateUp, bind.
  destruct (for_loop _ _ _ _ w) as [o' w2] eqn:Hloop.
  apply migrateUp_loop_keeps_transaction in Hloop; [|done].
  destruct o'; unfold ret; by intros [= <- <-].
Qed.

Lemma migrateDown_keeps_transaction st (step : Step) w o w1 :
  (∀ (m : NamedMigration U E) op,
     m ∈ migrations st → down m = Some op → keeps_transaction op) →
  migrateDown props st step w = (o, w1) →
  begun (db w1) = begun (db w).
Proof.
  intros Hkeep. unfold migrateDown, bind.
  destruct (initial_down_results _ w) as [[l|t] w2] eqn:Hinit;
    pose proof (initial_down_results_world _ _ _ _ Hinit) as ->;
    [|by intros [= <- <-]].
  destruct (for_loop _ _ _ _ w) as [o' w2] eqn:Hloop.
  apply (for_loop_invariant (λ w0, begun (db w0) = begun (db w))) in Hloop;
    [|clear Hloop|done].
  - destruct o'; unfold ret; by intros [= <- <-].
  - intros j s0 w0 o1 w3. unfold migrateDown_body.
    destruct (migrationsToRollback st step !! j) as [[m|]|] eqn:Hm;
      [|unfold throw; by intros [= <- <-]..].
    assert (m ∈ migrations st) as Hin.
    { unfold migrationsToRollback in Hm. rewrite list_lookup_fmap in Hm.
      destruct (slice0 _ _ !! j) as [n|]; simplify_eq/=.
      by eapply find_by_name_elem. }
    destruct (down m) as [down_op|] eqn:Hdown.
    + unfold try_catch, bind, invoke, exec_delete, ret, throw.
      pose proof (Hkeep m down_op Hin Hdown (db w0)) as Hop.
      destruct (down_op (db w0)) as [[e|] d'] eqn:Hop'; simpl in *.
      * intros [= <- <-]. simpl. congruence.
      * destruct (log d') as [rows|]; simpl;
          intros [= <- <-]; simpl; congruence.
    + unfold try_catch, ret. by intros [= <- <-].
Qed.

Lemma pending_in_migrations w st w' (m : NamedMigration U E) :
  getState props w = (Return st, w') →
  m ∈ pendingMigrations st → m ∈ migrations st.
Proof.
  intros (_ & _ & _ & _ & _ & _ & _ & -> & _)%getState_Return.
  rewrite getPendingMigrations_filter, list_elem_of_filter. tauto.
Qed.

Lemma operations_keep_transaction_state w st w' :
  operations_keep_transaction props →
  getState props w = (Return st, w') →
  ∀ m : NamedMigration U E,
    m ∈ migrations st →
    keeps_transaction (up m) ∧
    ∀ op, down m = Some op → keeps_transaction op.
Proof.
  intros Hkeep (all & _ & Hprov & _ & -> & _)%getState_Return m Hm.
  eapply (Hkeep all (name m)); [done|]. by apply resolved_lookup.
Qed.

Lemma run_keeps_transaction g w o w1 :
  operations_keep_transaction props →
  run clock props g w = (o, w1) →
  begun (db w1) = begun (db w).
Proof.
  intros Hkeep. unfold run, bind.
  destruct (getState props w) as [[st|t] w2] eqn:Hget;
    pose proof (getState_world _ _ _ Hget) as ->; [|by intros [= <- <-]].
  pose proof (operations_keep_transaction_state _ _ _ Hkeep Hget) as Hst.
  destruct (length (migrations st) =? 0); [unfold ret; by intros [= <- <-]|].
  destruct (g st) as [dir step].
  destruct (step_le_0 step); [unfold ret; by intros [= <- <-]|].
  destruct dir.
  - apply migrateUp_keeps_transaction. intros m Hm.
    apply Hst. by eapply pending_in_migrations.
  - apply migrateDown_keeps_transaction. intros m op Hm.
    by apply Hst.
Qed.

Lemma left_transaction_kept (d0 d1 : Database U) :
  begun d1 = begun (in_transaction d0) →
  left_transaction d0 d1 false = d0.
Proof.
  unfold left_transaction, in_transaction, inTransaction. simpl. intros ->.
  by destruct d0 as [lg u [[s v sp]|]].
Qed.

Lemma commit_error_kept (d0 d1 : Database U) :
  begun d1 = begun (in_transaction d0) →
  commit_error (E:=E) d0 d1 = None.
Proof.
  unfold commit_error, has_savepoint, in_transaction, inTransaction. simpl.
  intros ->. by destruct d0 as [lg u [tx|]].
Qed.

Lemma rollback_error_kept (d0 d1 : Database U) :
  begun d1 = begun (in_transaction d0) →
  rollback_error (E:=E) d0 d1 = None.
Proof.
  unfold rollback_error, has_savepoint, in_transaction, inTransaction. simpl.
  intros ->. by destruct d0 as [lg u [tx|]].
Qed.

Lemma left_transaction_rows (d0 d1 : Database U) :
  commit_error (E:=E) d0 d1 = None →
  log (left_transaction d0 d1 true) = log d1 ∧
  user (left_transaction d0 d1 true) = user d1.
Proof.
  unfold left_transaction, commit_error, has_savepoint.
  destruct (inTransaction d0), (begun d1) as [[s [msg|] [|sp rest]]|];
    simpl; done.
Qed.



(** C2: when the log names a migration the source does not list, or, with
    unordered migrations not allowed, the executed names are not the first
    names of the sorted migration list, [migrate] returns a result set with a
    corrupted-migrations error and no results; no operation was invoked and
    no statement was issued on the log, whose rows are unchanged. *)
Theorem corrupted_history_is_fatal g w
    (all : gmap string (Migration U E)) :
  provider props = inr all →
  (∃ n, n ∈ select_names (executedRows (db w)) ∧ n ∉ sorted_keys all) ∨
  (allowUnorderedMigrations props = false ∧
   take (length (select_names (executedRows (db w)))) (sorted_keys all)
     ≠ select_names (executedRows (db w))) →
  ∃ t w',
    migrate clock props g w = (Return (mkResultSet (Some t) None), w') ∧
    is_corrupted_error t = true ∧
    history w' = history w ∧
    db w' = with_log_table (db w) ∧
    executedRows (db w') = executedRows (db w).
Proof.
  intros Hprov Hbad.
  destruct (migrate_cases g w) as (o & w1 & Hrun & ->).
  pose proof (getState_cases (bootstrapped w)) as Hget.
  rewrite Hprov in Hget. simpl in Hget.
  destruct Hget as [[[Hsub Hord] _]|[_ (t & Hget & Ht)]].
  { exfalso. destruct Hbad as [(n & Hn & Hn')|[Hallow Hne]]; auto. }
  apply (proj2 (getState_entered _ _)) in Hget.
  unfold run, bind in Hrun. rewrite Hget in Hrun. simplify_eq.
  simpl. rewrite left_transaction_entered, rollback_error_entered.
  exists t, (bootstrapped w). split_and!; try done.
  destruct t; try done.
Qed.

Lemma rollback_error_Some (d0 d1 : Database U) (t : Thrown E) :
  rollback_error d0 d1 = Some t →
  inTransaction d0 = true ∧ t = no_such_savepoint.
Proof.
  unfold rollback_error.
  destruct (inTransaction d0), (inTransaction d1), (has_savepoint d1);
    simpl; by intros [= <-].
Qed.

(** C3, amended: when the operation of a candidate throws, it is the last
    thing the batch does.  What it threw is then the top-level error, its
    entry is [Error] and every later entry is [NotExecuted]; unless the call
    was made inside a transaction whose savepoint an operation of the source
    has let go: then the wrapper cannot roll back to it, and what it throws
    is returned as the error, without results.  And in every returned
    results list an [Error] entry comes with a top-level error, is the only
    [Error] entry, and is followed by [NotExecuted] entries only. *)
Theorem first_error_stops_the_batch g w rs w' (evs : list (Event E)) :
  migrate clock props g w = (Return rs, w') →
  history w' = history w ++ evs →
  (∀ pre dir n e post,
     evs = pre ++ Invoked dir n (Some e) :: post →
     post = [] ∧ quiet pre ∧
     ((error rs = Some (Foreign e) ∧
       ∃ l i, results rs = Some l ∧ l !! i = Some (mkResult n dir Error) ∧
              ∀ j r, l !! j = Some r → i < j → status r = NotExecuted) ∨
      (inTransaction (db w) = true ∧
       ¬ operations_keep_transaction props ∧
       error rs = Some no_such_savepoint ∧ results rs = None))) ∧
  (∀ l i r,
     results rs = Some l → l !! i = Some r → status r = Error →
     is_Some (error rs) ∧
     ∀ j r', l !! j = Some r' →
       (j ≠ i → status r' ≠ Error) ∧ (i < j → status r' = NotExecuted)).
Proof.
  intros Hm Hh.
  apply migrate_outcome in Hm
    as [(t & _ & _ & -> & ->)|(st & _ & [(-> & -> & _)|Hbatch])].
  - simpl in Hh. assert (evs = []) as ->.
    { apply (inj (app (history w))). by rewrite (right_id_L [] (++)). }
    split; [|done]. intros pre dir n e post Hevs.
    by apply app_cons_not_nil in Hevs.
  - simpl in Hh. assert (evs = []) as ->.
    { apply (inj (app (history w))). by rewrite (right_id_L [] (++)). }
    split.
    + intros pre dir n e post Hevs. by apply app_cons_not_nil in Hevs.
    + intros l i r [= <-] Hr. by rewrite lookup_nil in Hr.
  - destruct Hbatch
      as (cands & skip & evs' & o' & w1 & _ & _ & _ & Hh' & Hb & Hrun & _ & Ho).
    assert (evs' = evs) as ->.
    { apply (inj (app (history w))). congruence. }
    apply batch_outcome_fresh in Hb; [|apply name_at_lookup].
    destruct o' as [l|t0].
    + destruct Hb as (Hq & _ & Hst). split.
      * intros pre dir n e post ->. exfalso.
        apply Forall_app in Hq as [_ Hq]. by apply Forall_cons in Hq as [? _].
      * destruct (commit_error _ _); subst rs; [done|].
        intros l' i r [= <-] Hr Herr. exfalso.
        rewrite (Hst _ _ Hr) in Herr. simpl in Herr. by destruct (skip i).
    + destruct Ho as (t & l & ? & Ho).
      destruct Hb as (k & t' & l' & ? & Hk & Hsk & Hb & Hl & Hst).
      simplify_eq.
      destruct (rollback_error _ _) as [t1|] eqn:Hrollback; subst rs.
      { split; [|done]. intros pre dir n e post Hevs.
        destruct (blames_last _ _ _ _ _ _ _ Hb Hevs)
          as (-> & Hq & e' & ? & ->); [by eexists|].
        split_and!; [done..|]. right.
        pose proof (rollback_error_Some _ _ _ Hrollback) as [Hin ->].
        split_and!; [exact Hin| |done..].
        intros Hkeep. apply run_keeps_transaction in Hrun; [|done].
        pose proof (rollback_error_kept (db (bootstrapped w)) (db w1)
                      Hrun) as Hkept.
        rewrite Hkept in Hrollback. discriminate Hrollback. }
      split.
      * intros pre dir n e post Hevs.
        destruct (blames_last _ _ _ _ _ _ _ Hb Hevs)
          as (-> & Hq & e' & ? & ->); [by eexists|]. simplify_eq.
        split_and!; [done..|]. left. split; [done|].
        destruct (lookup_lt_is_Some_2 l k) as [r Hr]; [lia|].
        exists l, k. split_and!; [done| |].
        -- rewrite Hr. f_equal. rewrite (Hst _ _ Hr).
           rewrite decide_False, decide_True by (done || lia). done.
        -- intros j r' Hr' Hj. rewrite (Hst _ _ Hr'). simpl.
           rewrite !decide_False by lia. done.
      * intros l' i r [= <-] Hr Herr. split; [by eexists|].
        assert (i = k) as ->.
        { rewrite (Hst _ _ Hr) in Herr. simpl in Herr.
          destruct (decide (i < k)); [by destruct (skip i)|].
          by destruct (decide (i = k)). }
        intros j r' Hr'. rewrite (Hst _ _ Hr'). simpl. split.
        -- intros Hj. destruct (decide (j < k)); [by destruct (skip j)|].
           by rewrite decide_False.
        -- intros Hj. by rewrite !decide_False by lia.
Qed.

Lemma find_by_name_name ms n m : find_by_name ms n = Some m → name m = n.
Proof.
  unfold find_by_name. intros [_ H]%find_some. by apply String.eqb_eq.
Qed.

Lemma found_names ms (names : list string)
    (cands : list (NamedMigration U E)) :
  find_by_name ms <$> names = Some <$> cands → name <$> cands = names.
Proof.
  revert cands. induction names as [|n names IH]; intros [|m cands];
    csimpl; intros H; simplify_eq; [done|].
  f_equal; [by eapply find_by_name_name|by apply IH].
Qed.


(** ** Running [migrateToLatest] again *)

Global Instance row_le_antisymm : AntiSymm (=) row_le.
Proof.
  intros [n1 ts1] [n2 ts2]. rewrite !row_le_alt. simpl.
  intros [H12|[-> N12]] [H21|[E21 N21]].
  - exfalso. eauto using string_ltb_irrefl_le, string_ltb_le.
  - subst. exfalso. eapply string_ltb_irrefl_le; [exact H12|]. done.
  - exfalso. eapply string_ltb_irrefl_le; [exact H21|]. done.
  - f_equal. by apply (anti_symm String.le).
Qed.

Lemma stamp_rows_names (ms : list (NamedMigration U E)) (tick : nat) :
  (stamp_rows clock ms tick).*1 = name <$> ms.
Proof.
  revert tick. induction ms as [|m ms IH]; intros tick; csimpl; [done|].
  by rewrite IH.
Qed.

Lemma stamp_rows_elem (ms : list (NamedMigration U E)) (tick : nat) (r : Row) :
  r ∈ stamp_rows clock ms tick →
  r.1 ∈ name <$> ms ∧ ∃ j, tick ≤ j ∧ r.2 = clock j.
Proof.
  revert tick. induction ms as [|m ms IH]; intros tick; csimpl.
  - by rewrite elem_of_nil.
  - rewrite !elem_of_cons. intros [->|Hr]; simpl.
    + split; [by left|]. exists tick. done.
    + destruct (IH _ Hr) as (? & j & ? & ?). split; [by right|].
      exists j. split; [lia|done].
Qed.

Lemma stamp_rows_sorted (ms : list (NamedMigration U E)) (tick : nat) :
  monotone_clock clock →
  StronglySorted String.le (name <$> ms) →
  StronglySorted row_le (stamp_rows clock ms tick).
Proof.
  intros Hclock. revert tick.
  induction ms as [|m ms IH]; intros tick; csimpl; [constructor|].
  rewrite !StronglySorted_cons. intros [Hm Hms]. split; [|by apply IH].
  apply Forall_forall. intros r Hr.
  destruct (stamp_rows_elem _ _ _ Hr) as (Hn & j & Hj & Hts).
  apply row_le_alt. simpl. rewrite Hts.
  destruct (string_le_cases (clock tick) (clock j)) as [Heq|Hlt]; auto.
  { apply Hclock. lia. }
  right. split; [done|]. eapply Forall_forall in Hm; [exact Hm|done].
Qed.

Lemma map_to_list_stamp (ms : list (NamedMigration U E)) (tick : nat)
    (rows : gmap string string) :
  NoDup (name <$> ms) →
  (∀ m : NamedMigration U E, m ∈ ms → rows !! name m = None) →
  map_to_list (stamp clock ms tick rows) ≡ₚ
    map_to_list rows ++ stamp_rows clock ms tick.
Proof.
  revert tick rows. induction ms as [|m ms IH]; intros tick rows; csimpl.
  - intros _ _. by rewrite (right_id_L [] (++)).
  - rewrite NoDup_cons. intros [Hm Hnodup] Hfresh.
    rewrite IH; [|done|].
    + rewrite map_to_list_insert by (apply Hfresh; by left).
      simpl. apply Permutation_middle.
    + intros m' Hm'. rewrite lookup_insert_ne.
      * apply Hfresh. by right.
      * intros Heq. apply Hm. rewrite Heq. by apply list_elem_of_fmap_2.
Qed.

(** What a successful loop of [migrateUp] leaves in the log when the [up]
    operations do not touch it. *)
Lemma migrateUp_loop_log st (k i : nat) results w l w1
    (rows : gmap string string) :
  (∀ m : NamedMigration U E, m ∈ pendingMigrations st → keeps_log (up m)) →
  log (db w) = Some rows →
  i + k ≤ length (pendingMigrations st) →
  for_loop k i (migrateUp_body clock props st) results w = (Return l, w1) →
  log (db w1) =
    Some (stamp clock (take k (drop i (pendingMigrations st))) (ticks w) rows).
Proof.
  intros Hkeep. revert i results w rows.
  induction k as [|k IH]; intros i results w rows Hlog Hlen; simpl.
  - intros [= <- <-]. done.
  - destruct (lookup_lt_is_Some_2 (pendingMigrations st) i) as [m Hm]; [lia|].
    rewrite (drop_S _ _ _ Hm). simpl.
    unfold bind at 1, migrateUp_body at 1. rewrite Hm.
    unfold try_catch, bind, invoke, now, exec_insert, ret, throw.
    pose proof (Hkeep m ltac:(by eapply list_elem_of_lookup_2) (db w)) as Hop.
    destruct (up m (db w)) as [[e|] d'] eqn:Hup; simpl in *; [done|].
    rewrite Hop, Hlog. destruct (rows !! name m) eqn:Hrow; simpl; [done|].
    intros Hloop. eapply IH in Hloop; [exact Hloop|done|lia].
Qed.

Lemma filter_none {A} (P : A → Prop) `{!∀ x, Decision (P x)} (l : list A) :
  Forall (λ x, ¬ P x) l → filter P l = [].
Proof.
  induction 1 as [|x l Hx _ IH]; [done|]. by rewrite filter_cons_False.
Qed.

Lemma filter_all {A} (P : A → Prop) `{!∀ x, Decision (P x)} (l : list A) :
  Forall P l → filter P l = l.
Proof.
  induction 1 as [|x l Hx _ IH]; [done|]. by rewrite filter_cons_True, IH.
Qed.

(** When the executed names are the first names of the migration list, the
    pending migrations are the rest of the list. *)
Lemma getPendingMigrations_drop ms (ex : list string) :
  NoDup (name <$> ms) →
  take (length ex) (name <$> ms) = ex →
  getPendingMigrations ms ex = drop (length ex) ms.
Proof.
  intros Hnodup Hex. rewrite getPendingMigrations_filter.
  set (k := length ex) in *.
  assert (ex = name <$> take k ms) as Hex' by (by rewrite fmap_take).
  rewrite <-(take_drop k ms), fmap_app in Hnodup.
  apply NoDup_app in Hnodup as (_ & Hdisj & _).
  rewrite <-(take_drop k ms) at 1. rewrite filter_app.
  rewrite filter_none, filter_all; [done| |].
  - apply Forall_forall. intros m Hm Hin. apply (Hdisj (name m)).
    + by rewrite <-Hex'.
    + by apply list_elem_of_fmap_2.
  - apply Forall_forall. intros m Hm Hnot. apply Hnot. rewrite Hex'.
    by apply list_elem_of_fmap_2.
Qed.

Lemma bootstrapped_id w (rows : gmap string string) :
  log (db w) = Some rows → bootstrapped w = w.
Proof. destruct w as [[lg u b] h tk]. simpl. by intros ->. Qed.

(** A call of [migrate] in which [run] invokes nothing: the transaction is
    entered and left, and the world is the one after the bootstrap. *)
Lemma migrate_without_batch g w rs :
  run clock props g (entered (bootstrapped w))
    = (Return rs, entered (bootstrapped w)) →
  migrate clock props g w = (Return rs, bootstrapped w).
Proof.
  intros Hrun. destruct (migrate_cases g w) as (o & w1 & Hrun' & ->).
  rewrite Hrun in Hrun'. simplify_eq. simpl.
  by rewrite left_transaction_entered, commit_error_entered.
Qed.

Lemma migrate_without_batch_Throw g w t :
  plain t →
  run clock props g (entered (bootstrapped w))
    = (Throw t, entered (bootstrapped w)) →
  migrate clock props g w
    = (Return (mkResultSet (Some t) None), bootstrapped w).
Proof.
  intros Hplain Hrun.
  destruct (migrate_cases g w) as (o & w1 & Hrun' & ->).
  rewrite Hrun in Hrun'. simplify_eq. simpl.
  rewrite left_transaction_entered, rollback_error_entered. by destruct t.
Qed.

(** With nothing pending, [migrateToLatest] returns an empty results list and
    leaves the world as it is. *)
Lemma migrateToLatest_nothing_pending w st (rows : gmap string string) :
  log (db w) = Some rows →
  getState props w = (Return st, w) →
  pendingMigrations st = [] →
  migrateToLatest clock props w = (Return (mkResultSet None (Some [])), w).
Proof.
  intros Hlog Hget Hpending. unfold migrateToLatest.
  rewrite <-(bootstrapped_id _ _ Hlog) at 2.
  apply migrate_without_batch. rewrite (bootstrapped_id _ _ Hlog).
  apply (proj2 (getState_entered _ _)) in Hget.
  unfold run, bind. rewrite Hget.
  destruct (length (migrations st) =? 0); [done|].
  simpl. unfold migrateUp, bind. simpl. by rewrite Hpending.
Qed.

(** A first call that returns no error either had no migrations at all, or
    ran the loop of [migrateUp] over all pending migrations to its end, and
    committed. *)
Lemma migrateToLatest_success_inv w rs w1 :
  migrateToLatest clock props w = (Return rs, w1) →
  error rs = None →
  ∃ st,
    getState props (bootstrapped w) = (Return st, bootstrapped w) ∧
    ((migrations st = [] ∧ w1 = bootstrapped w) ∨
     (∃ l w2, for_loop (length (pendingMigrations st)) 0
                (migrateUp_body clock props st)
                (fresh_results Up (pendingMigrations st))
                (entered (bootstrapped w))
              = (Return l, w2) ∧
              log (db w1) = log (db w2))).
Proof.
  unfold migrateToLatest. intros Hm Herr.
  destruct (migrate_cases (λ _, (Up, Infinity)) w) as (o & w1' & Hrun & Hm').
  rewrite Hm' in Hm. clear Hm'. destruct o as [rs'|t].
  - destruct (commit_error _ _) as [t|] eqn:Hcommit; simplify_eq.
    unfold run, bind in Hrun.
    destruct (getState props (entered (bootstrapped w))) as [[st|t] w2]
      eqn:Hget; [|done].
    pose proof (getState_world _ _ _ Hget) as ->.
    exists st. split; [by apply getState_entered|].
    destruct (Nat.eqb_spec (length (migrations st)) 0) as [Hlen|Hlen].
    + left. unfold ret in Hrun. simplify_eq.
      split; [by apply nil_length_inv|]. simpl.
      by rewrite left_transaction_entered.
    + right. simpl in Hrun. unfold migrateUp, bind in Hrun. simpl in Hrun.
      rewrite length_fmap in Hrun. unfold fresh_results.
      destruct (for_loop _ _ _ _ _) as [[l|t] w2]; [|done].
      unfold ret in Hrun. simplify_eq. exists l, w1'.
      split; [done|by apply left_transaction_rows].
  - exfalso. simplify_eq. apply run_cases in Hrun
      as [(t' & _ & Hplain & ? & _)|(st & _ & [(? & _)|Hbatch])];
      simplify_eq.
    + destruct (rollback_error _ _); [done|]. by destruct t'.
    + destruct Hbatch as (cands & skip & evs & o' & _ & _ & _ & _ & Hb & Ho).
      destruct o' as [l|t0]; simpl in Ho; simplify_eq.
      apply batch_outcome_Throw in Hb as (t' & l & ->).
      by destruct (rollback_error _ _).
Qed.

Section second_call.

(** The log before the first call, the migrations of the source, and the log
    after all pending migrations have been run and stamped. *)
Variables (all : gmap string (Migration U E)) (rows0 : gmap string string).
Variable tick : nat.

Let ms := resolved all.
Let ex0 := select_names rows0.
Let pending := getPendingMigrations ms ex0.
Let rows1 := stamp clock pending tick rows0.

Hypothesis ex0_known : ex0 ⊆ sorted_keys all.

Lemma pending_sublist : sublist pending ms.
Proof.
  subst pending. rewrite getPendingMigrations_filter. apply sublist_filter.
Qed.

Lemma pending_NoDup : NoDup (name <$> pending).
Proof.
  eapply sublist_NoDup; [|apply fmap_sublist, pending_sublist].
  subst ms. rewrite resolved_names. apply NoDup_sorted_keys.
Qed.

Lemma pending_fresh (m : NamedMigration U E) :
  m ∈ pending → rows0 !! name m = None.
Proof.
  subst pending. rewrite getPendingMigrations_filter, list_elem_of_filter.
  intros [Hm _]. apply eq_None_not_Some. intros Hsome. apply Hm.
  by apply elem_of_select_names.
Qed.

Lemma rows1_list :
  map_to_list rows1 ≡ₚ map_to_list rows0 ++ stamp_rows clock pending tick.
Proof.
  apply map_to_list_stamp; [apply pending_NoDup|apply pending_fresh].
Qed.

Lemma select_names_rows1 :
  select_names rows1 ≡ₚ ex0 ++ (name <$> pending).
Proof.
  rewrite select_names_perm, rows1_list, fmap_app, stamp_rows_names.
  subst ex0. by rewrite select_names_perm.
Qed.

Lemma rows1_known : select_names rows1 ⊆ sorted_keys all.
Proof.
  intros n. rewrite select_names_rows1, elem_of_app. intros [Hn|Hn]; [auto|].
  rewrite <-resolved_names. fold ms.
  eapply sublist_subseteq; [apply fmap_sublist, pending_sublist|done].
Qed.

Lemma rows1_complete : getPendingMigrations ms (select_names rows1) = [].
Proof.
  rewrite getPendingMigrations_filter. apply filter_none, Forall_forall.
  intros m Hm Hnot. apply Hnot.
  rewrite select_names_rows1, elem_of_app.
  destruct (decide (name m ∈ ex0)) as [|Hex]; [by left|right].
  apply list_elem_of_fmap_2. subst pending.
  rewrite getPendingMigrations_filter, list_elem_of_filter. done.
Qed.

(** In ordered mode, with names that are in byte order when they are in the
    order of code units, a clock that does not run backwards and no
    timestamp in the log later than the clock, the log after the first call
    lists the names in the order of the migration list. *)
Lemma rows1_in_order :
  Sorted String.le (sorted_keys all) →
  take (length ex0) (sorted_keys all) = ex0 →
  monotone_clock clock →
  (∀ n ts, rows0 !! n = Some ts → String.le ts (clock tick)) →
  select_names rows1 = sorted_keys all.
Proof.
  intros Hbytes Hprefix Hclock Hpast.
  assert (NoDup (name <$> ms)) as Hnodup.
  { subst ms. rewrite resolved_names. apply NoDup_sorted_keys. }
  assert (name <$> pending = drop (length ex0) (sorted_keys all)) as Hrest.
  { subst pending. rewrite getPendingMigrations_drop; [|done|].
    - subst ms. by rewrite fmap_drop, resolved_names.
    - subst ms. by rewrite resolved_names. }
  pose proof (Sorted_StronglySorted _ _ Hbytes) as Hkeys.
  rewrite <-(take_drop (length ex0) (sorted_keys all)) in Hkeys.
  rewrite Hprefix, <-Hrest in Hkeys.
  apply StronglySorted_app in Hkeys as (Hcross & _ & Hsorted).
  assert (merge_sort row_le (map_to_list rows1) =
          merge_sort row_le (map_to_list rows0)
            ++ stamp_rows clock pending tick) as Hrows.
  { apply (StronglySorted_unique row_le).
    - apply (StronglySorted_merge_sort _).
    - apply StronglySorted_app. split_and!.
      + intros r1 r2 Hr1 Hr2.
        rewrite merge_sort_Permutation in Hr1.
        destruct r1 as [n1 ts1].
        pose proof Hr1 as Hrow%elem_of_map_to_list.
        destruct (stamp_rows_elem _ _ _ Hr2) as (Hn2 & j & Hj & Hts).
        apply row_le_alt. simpl. rewrite Hts.
        assert (String.le ts1 (clock j)) as Hle.
        { trans (clock tick); [by eapply Hpast|]. by apply Hclock. }
        destruct (string_le_cases _ _ Hle) as [->|]; [|by left].
        right. split; [done|]. apply Hcross; [|done].
        subst ex0. apply elem_of_select_names. eauto.
      + apply (StronglySorted_merge_sort _).
      + by apply stamp_rows_sorted.
    - by rewrite !merge_sort_Permutation, rows1_list. }
  unfold select_names at 1. rewrite Hrows, fmap_app, stamp_rows_names.
  fold (select_names rows0). fold ex0.
  by rewrite Hrest, <-Hprefix at 1; rewrite take_drop.
Qed.

End second_call.

(** C8, amended: when no [up] operation touches the log table and, unless
    unordered migrations are allowed, the names of the source are in byte
    order when [sort()] has put them in the order of code units, the clock
    does not run backwards and no timestamp of the log is later than the
    clock, a second [migrateToLatest] after a first one that returned no
    error returns an empty results list and no error, and changes
    nothing. *)
Theorem migrateToLatest_twice w rs1 w1 :
  (∀ all n m, provider props = inr all → all !! n = Some m →
              keeps_log (up m)) →
  allowUnorderedMigrations props = true ∨
  ((∀ all, provider props = inr all → Sorted String.le (sorted_keys all)) ∧
   monotone_clock clock ∧
   ∀ n ts, executedRows (db w) !! n = Some ts →
           String.le ts (clock (ticks w))) →
  migrateToLatest clock props w = (Return rs1, w1) →
  error rs1 = None →
  migrateToLatest clock props w1 = (Return (mkResultSet None (Some [])), w1).
Proof.
  intros Hkeep Htime Hfirst Herr.
  apply migrateToLatest_success_inv in Hfirst as (st & Hget & Hran); [|done].
  pose proof Hget as
    (all & rows0 & Hprov & Hlog & Hms & Hex & _ & Hpend & Hknown & Hord)
      %getState_Return.
  simpl in Hlog. injection Hlog as <-.
  destruct Hran as [[Hnone ->]|(l & w2 & Hloop & Hlog1)].
  - eapply migrateToLatest_nothing_pending; [done|exact Hget|].
    rewrite Hpend, Hnone. done.
  - eapply migrateUp_loop_log in Hloop; [|..|done|done].
    2:{ intros m Hm. eapply Hkeep; [done|]. apply resolved_lookup.
        rewrite <-Hms. rewrite Hpend, getPendingMigrations_filter in Hm.
        by apply list_elem_of_filter in Hm as [_ ?]. }
    rewrite drop_0, take_ge, Hpend, Hms, Hex in Hloop by done.
    simpl in Hloop. rewrite <-Hlog1 in Hloop.
    pose proof (getState_cases w1) as Hget1.
    rewrite Hprov, Hloop in Hget1. simpl in Hget1.
    destruct Hget1 as [[_ Hget1]|[Hbad _]].
    + eapply migrateToLatest_nothing_pending; [done|exact Hget1|].
      simpl. by apply rows1_complete.
    + exfalso. apply Hbad. split; [by apply rows1_known|].
      intros Hallow.
      destruct Htime as [?|(Hbytes & Hclock & Hpast)]; [congruence|].
      rewrite rows1_in_order by auto. by rewrite take_ge.
Qed.

(** ** The file provider *)

Lemma string_length_app (s t : string) :
  String.length (s +:+ t) = String.length s + String.length t.
Proof. induction s as [|a s IH]; simpl; [done|]. by rewrite IH. Qed.

Lemma endsWith_spec (s suffix : string) :
  endsWith s suffix = true ↔ ∃ base, s = base +:+ suffix.
Proof.
  induction s as [|a s IH]; cbn [endsWith].
  - rewrite orb_false_r, String.eqb_eq. split.
    + intros <-. by exists "".
    + intros [[|b base] Hb]; simpl in Hb; [done|discriminate].
  - rewrite orb_true_iff, String.eqb_eq, IH. split.
    + intros [<-|[base ->]]; [by exists ""|]. by exists (String a base).
    + intros [[|b base] Hb]; simpl in Hb; [by left|].
      injection Hb as <- ->. right. by exists base.
Qed.

(** Only the end of a name decides whether it ends with a shorter suffix. *)
Lemma endsWith_app (base t suffix : string) :
  String.length suffix ≤ String.length t →
  endsWith (base +:+ t) suffix = endsWith t suffix.
Proof.
  intros Hlen. induction base as [|a base IH]; [done|].
  change (String a base +:+ t) with (String a (base +:+ t)).
  cbn [endsWith]. rewrite IH. replace (String.eqb _ suffix) with false; [done|].
  symmetry. apply String.eqb_neq. intros Heq.
  apply (f_equal String.length) in Heq. simpl in Heq.
  rewrite string_length_app in Heq. lia.
Qed.

Lemma lastIndexOf_app (base t search : string) :
  (0 ≤ lastIndexOf t search)%Z →
  lastIndexOf (base +:+ t) search
    = (Z.of_nat (String.length base) + lastIndexOf t search)%Z.
Proof.
  intros Ht. induction base as [|a base IH].
  - change ("" +:+ t) with t.
    change (Z.of_nat (String.length "")) with 0%Z. lia.
  - change (String a base +:+ t) with (String a (base +:+ t)).
    cbn [lastIndexOf String.length]. rewrite IH.
    destruct (Z.leb_spec 0 (Z.of_nat (String.length base)
                            + lastIndexOf t search)); lia.
Qed.

Lemma substring0_app (base t : string) :
  substring0 (Z.of_nat (String.length base)) (base +:+ t) = base.
Proof.
  unfold substring0. rewrite Nat2Z.id.
  induction base as [|a base IH]; simpl.
  - by destruct t.
  - by rewrite IH.
Qed.

Lemma string_app_cons a (s t : string) :
  String a s +:+ t = String a (s +:+ t).
Proof. reflexivity. Qed.

Lemma string_app_nil (t : string) : "" +:+ t = t.
Proof. reflexivity. Qed.

Lemma lastIndexOf_dot_ext (ext : string) :
  lastIndexOf ext "." = (-1)%Z → lastIndexOf ("." +:+ ext) "." = 0%Z.
Proof.
  intros Hext. rewrite string_app_cons, string_app_nil.
  cbn [lastIndexOf]. rewrite Hext. by destruct ext.
Qed.

(** The key of [base.ext] is [base] when [ext] has no dot. *)
Lemma migrationKey_app (base ext : string) :
  lastIndexOf ext "." = (-1)%Z →
  migrationKey (base +:+ "." +:+ ext) = base.
Proof.
  intros Hext. unfold migrationKey.
  rewrite lastIndexOf_app, lastIndexOf_dot_ext by (by rewrite ?lastIndexOf_dot_ext).
  rewrite Z.add_0_r. apply substring0_app.
Qed.

Lemma is_migration_file_inv (fileName : string) :
  is_migration_file fileName = true →
  ∃ ext, ext ∈ ["js"; "ts"; "mjs"; "mts"] ∧
         fileName = migrationKey fileName +:+ "." +:+ ext.
Proof.
  unfold is_migration_file. rewrite !orb_true_iff, !andb_true_iff.
  intros [[[H|[H _]]|H]|[H _]]; apply endsWith_spec in H as [base ->].
  - exists "js". split; [set_solver|].
    change (base +:+ ".js") with (base +:+ "." +:+ "js").
    by rewrite migrationKey_app.
  - exists "ts". split; [set_solver|].
    change (base +:+ ".ts") with (base +:+ "." +:+ "ts").
    by rewrite migrationKey_app.
  - exists "mjs". split; [set_solver|].
    change (base +:+ ".mjs") with (base +:+ "." +:+ "mjs").
    by rewrite migrationKey_app.
  - exists "mts". split; [set_solver|].
    change (base +:+ ".mts") with (base +:+ "." +:+ "mts").
    by rewrite migrationKey_app.
Qed.

(** X1: a file name that [getMigrations] loads is its key, a dot and one of
    the four extensions: the key is the name without its extension. *)
Theorem loaded_file_name_is_key_dot_extension (fileName : string) :
  is_migration_file fileName = true →
  ∃ ext, ext ∈ ["js"; "ts"; "mjs"; "mts"] ∧
         fileName = migrationKey fileName +:+ "." +:+ ext.
Proof. apply is_migration_file_inv. Qed.

(** X2: TypeScript declaration files are never loaded, and neither is a file
    without one of the four extensions. *)
Theorem declaration_files_are_not_loaded (base : string) :
  is_migration_file (base +:+ ".d.ts") = false ∧
  is_migration_file (base +:+ ".d.mts") = false ∧
  (∀ ext, lastIndexOf ext "." = (-1)%Z →
          ext ∉ ["js"; "ts"; "mjs"; "mts"] →
          is_migration_file (base +:+ "." +:+ ext) = false).
Proof.
  split_and!.
  - unfold is_migration_file.
    rewrite !(endsWith_app base ".d.ts") by (simpl; lia). reflexivity.
  - unfold is_migration_file.
    rewrite !(endsWith_app base ".d.mts") by (simpl; lia). reflexivity.
  - intros ext Hdot Hext.
    destruct (is_migration_file (base +:+ "." +:+ ext)) eqn:Hload; [|done].
    apply is_migration_file_inv in Hload
      as (ext' & Hin & Heq).
    rewrite (migrationKey_app base ext Hdot) in Heq.
    assert (ext = ext') as ->; [|done].
    clear -Heq. induction base as [|a base IH]; simpl in Heq.
    + by injection Heq.
    + injection Heq as Heq. auto.
Qed.

Section provider.

Context {F X : Type}.

Implicit Types (folder : MigrationFolder F X) (files : list string).
Implicit Types (acc : gmap string (Value F)) (v : Value F).

Lemma exported_migration_isMigration v exported :
  exported_migration v = Some exported → isMigration exported = true.
Proof.
  unfold exported_migration.
  destruct (isMigration (get_property_opt v "default")) eqn:Hdefault.
  - by intros [= <-].
  - destruct (isMigration v) eqn:Hv; [|done]. by intros [= <-].
Qed.

Lemma last_omap_cons {A B} (f : A → option B) (x : A) (l : list A) :
  last (omap f (x :: l)) =
  match last (omap f l) with Some y => Some y | None => f x end.
Proof.
  csimpl. destruct (f x) as [y|]; [|by destruct (last (omap f l))].
  destruct (omap f l) as [|z l']; [done|]. rewrite last_cons.
  by destruct (last (z :: l')).
Qed.

Lemma load_files_inr folder files acc record :
  load_files folder files acc = inr record →
  (∀ key, record !! key =
          match (if String.eqb key "__proto__" then None
                 else last (omap (contribution folder key) files)) with
          | Some exported => Some exported
          | None => acc !! key
          end) ∧
  (map_Forall (λ _ v, isMigration v = true) acc →
   map_Forall (λ _ v, isMigration v = true) record).
Proof.
  revert acc. induction files as [|fileName files IH]; intros acc Hload.
  - simpl in Hload. simplify_eq. split; [|done].
    intros key. by destruct (String.eqb key "__proto__").
  - cbn [load_files] in Hload.
    destruct (is_migration_file fileName) eqn:Hfile.
    + destruct (require folder fileName) as [thrown|migration] eqn:Hreq;
        [done|].
      apply IH in Hload as [Hlookup Hinv]. split.
      * intros key. rewrite Hlookup, last_omap_cons. unfold set_property.
        destruct (String.eqb_spec key "__proto__") as [->|Hproto].
        { destruct (exported_migration migration); [|done].
          destruct (String.eqb_spec (migrationKey fileName) "__proto__");
            [done|]. by rewrite lookup_insert_ne. }
        destruct (last (omap (contribution folder key) files)); [done|].
        unfold contribution. rewrite Hfile, Hreq. simpl.
        destruct (String.eqb_spec (migrationKey fileName) key) as [->|Hne];
          destruct (exported_migration migration); try done.
        -- rewrite (proj2 (String.eqb_neq _ _) Hproto).
           by rewrite lookup_insert_eq.
        -- destruct (String.eqb (migrationKey fileName) "__proto__");
             [done|]. by rewrite lookup_insert_ne.
      * intros Hacc. apply Hinv.
        destruct (exported_migration migration) as [exported|] eqn:Hexp;
          [|done].
        unfold set_property.
        destruct (String.eqb (migrationKey fileName) "__proto__"); [done|].
        apply map_Forall_insert_2; [|done].
        by eapply exported_migration_isMigration.
    + apply IH in Hload as [Hlookup Hinv]. split; [|done].
      intros key. rewrite Hlookup, last_omap_cons.
      destruct (String.eqb key "__proto__"); [done|].
      destruct (last (omap (contribution folder key) files)); [done|].
      unfold contribution. by rewrite Hfile.
Qed.

(** X3: everything in the record that [getMigrations] returns is a
    migration: an object whose [up] is a function. *)
Theorem provided_values_are_migrations folder record key v :
  provider_getMigrations folder = inr record →
  record !! key = Some v →
  isMigration v = true ∧
  typeof v = "object" ∧ typeof (get_property v "up") = "function".
Proof.
  unfold provider_getMigrations.
  destruct (readdirSync folder) as [|files]; [done|].
  intros [_ Hinv]%load_files_inr Hv.
  assert (isMigration v = true) as Hm.
  { eapply (Hinv (map_Forall_empty _)), Hv. }
  split; [done|]. unfold isMigration, isObject, isFunction in Hm.
  apply andb_true_iff in Hm as [[Ho _]%andb_true_iff Hf].
  by rewrite !String.eqb_eq in *.
Qed.

(** X4: under each key the record holds what the last file of the listing
    with that key exports, among the loaded files that export a migration;
    of a module, the [default] export is taken if it is a migration, else
    the module itself if it is one.  The key [__proto__] is the exception:
    the record never has it, whatever the files export. *)
Theorem last_file_of_a_key_wins folder files record key :
  readdirSync folder = inr files →
  provider_getMigrations folder = inr record →
  record !! key = (if String.eqb key "__proto__" then None
                   else last (omap (contribution folder key) files)) ∧
  (∀ fileName migration,
     is_migration_file fileName = true →
     require folder fileName = inr migration →
     contribution folder (migrationKey fileName) fileName =
       if isMigration (get_property_opt migration "default")
       then Some (get_property_opt migration "default")
       else if isMigration migration then Some migration else None).
Proof.
  unfold provider_getMigrations. intros ->.
  intros [Hlookup _]%load_files_inr. split.
  - rewrite Hlookup, lookup_empty.
    by destruct (if String.eqb key "__proto__" then _ else _).
  - intros fileName migration Hfile Hreq. unfold contribution.
    by rewrite Hfile, Hreq, String.eqb_refl.
Qed.

Lemma load_files_cases folder files acc :
  match load_files folder files acc with
  | inr _ =>
      ∀ fileName, fileName ∈ files → is_migration_file fileName = true →
                  ∃ migration, require folder fileName = inr migration
  | inl thrown =>
      ∃ before fileName after,
        files = before ++ fileName :: after ∧
        is_migration_file fileName = true ∧
        require folder fileName = inl thrown ∧
        ∀ earlier, earlier ∈ before → is_migration_file earlier = true →
                   ∃ migration, require folder earlier = inr migration
  end.
Proof.
  revert acc. induction files as [|fileName files IH]; intros acc.
  - simpl. intros ? Hin. by apply elem_of_nil in Hin.
  - cbn [load_files]. destruct (is_migration_file fileName) eqn:Hfile.
    + destruct (require folder fileName) as [thrown|migration] eqn:Hreq.
      * exists [], fileName, files. split_and!; [done..|].
        intros ? Hin. by apply elem_of_nil in Hin.
      * specialize (IH (match exported_migration migration with
                        | Some exported =>
                            set_property acc (migrationKey fileName) exported
                        | None => acc
                        end)).
        destruct (load_files _ _ _) as [thrown|record].
        -- destruct IH as (before & f & after & -> & ? & ? & Hbefore).
           exists (fileName :: before), f, after. split_and!; [done..|].
           intros earlier [->|Hin]%elem_of_cons ?; eauto.
        -- intros f [->|Hin]%elem_of_cons ?; eauto.
    + specialize (IH acc). destruct (load_files _ _ _) as [thrown|record].
      * destruct IH as (before & f & after & -> & ? & ? & Hbefore).
        exists (fileName :: before), f, after. split_and!; [done..|].
        intros earlier [->|Hin]%elem_of_cons ?; [congruence|eauto].
      * intros f [->|Hin]%elem_of_cons ?; [congruence|eauto].
Qed.

(** X5: [getMigrations] returns a record exactly when every file it loads
    can be required; otherwise it throws what the first such file throws,
    and no record.  A file that is not loaded is never required. *)
Theorem provider_throws_what_the_first_bad_file_throws folder files :
  readdirSync folder = inr files →
  match provider_getMigrations folder with
  | inr _ =>
      ∀ fileName, fileName ∈ files → is_migration_file fileName = true →
                  ∃ migration, require folder fileName = inr migration
  | inl thrown =>
      ∃ before fileName after,
        files = before ++ fileName :: after ∧
        is_migration_file fileName = true ∧
        require folder fileName = inl thrown ∧
        ∀ earlier, earlier ∈ before → is_migration_file earlier = true →
                   ∃ migration, require folder earlier = inr migration
  end.
Proof.
  unfold provider_getMigrations. intros ->. apply load_files_cases.
Qed.

Lemma load_files_ext folder1 folder2 files acc :
  (∀ fileName, fileName ∈ files → is_migration_file fileName = true →
               require folder1 fileName = require folder2 fileName) →
  load_files folder1 files acc = load_files folder2 files acc.
Proof.
  revert acc. induction files as [|fileName files IH]; intros acc Hsame;
    [done|].
  cbn [load_files]. destruct (is_migration_file fileName) eqn:Hfile.
  - rewrite <-(Hsame fileName) by (done || by left).
    destruct (require folder1 fileName); [done|].
    apply IH. intros f ? ?. apply Hsame; [by right|done].
  - apply IH. intros f ? ?. apply Hsame; [by right|done].
Qed.

(** X6: what [getMigrations] returns or throws depends only on the listing
    and on the files it loads: whatever else is in the folder, and whether it
    could be required, makes no difference. *)
Theorem other_files_do_not_matter folder1 folder2 files :
  readdirSync folder1 = inr files →
  readdirSync folder2 = inr files →
  (∀ fileName, fileName ∈ files → is_migration_file fileName = true →
               require folder1 fileName = require folder2 fileName) →
  provider_getMigrations folder1 = provider_getMigrations folder2.
Proof.
  unfold provider_getMigrations. intros -> -> Hsame. by apply load_files_ext.
Qed.

End provider.

(** ** Introspection and failures before any batch *)

(** X7: [getMigrations] changes nothing and returns one entry per
    migration of the source, in the order of [sort()], each with the
    migration of that name.  When [doesTableExists] finds the log table, an
    entry has a date exactly when the log has a row of its name, and it is
    the date read from the timestamp of that row; when it does not (there is
    no table, or [sqlite_master] lists it under another string than the
    configured one) no entry has a date.  The table is not created. *)
Theorem getMigrations_reports_every_migration
    (listed : Database U → bool) w (all : gmap string (Migration U E)) :
  provider props = inr all →
  ∃ infos,
    getMigrations props listed w = (Return infos, w) ∧
    info_name <$> infos = sorted_keys all ∧
    Sorted code_unit_le (info_name <$> infos) ∧
    NoDup (info_name <$> infos) ∧
    Forall (λ info,
              all !! info_name info = Some (info_migration info) ∧
              executedAt info =
                if doesTableExists listed (db w)
                then new_Date <$> executedRows (db w) !! info_name info
                else None)
           infos.
Proof.
  intros Hprov.
  unfold getMigrations, doesTableExists, query_rows, bind, resolveMigrations,
    ret.
  rewrite Hprov.
  set (ms := resolved all).
  assert (∀ m, m ∈ ms → all !! name m = Some (as_migration m)) as Hlookup.
  { intros m. apply resolved_lookup. }
  assert (∀ rows : gmap string string,
            info_name <$>
              ((λ m : NamedMigration U E,
                  mkInfo (name m) (as_migration m)
                    (new_Date <$> rows !! name m)) <$> ms)
            = sorted_keys all) as Hnames.
  { intros rows. rewrite <-list_fmap_compose. rewrite <-(resolved_names all).
    by apply list_fmap_ext. }
  unfold executedRows.
  destruct (log (db w)) as [rows|] eqn:Hlog; [destruct (listed (db w))|];
    simpl; rewrite ?Hlog; simpl;
    (eexists; split; [reflexivity|]; rewrite Hnames;
     split_and!;
     [done|apply Sorted_sorted_keys|apply NoDup_sorted_keys|];
     apply Forall_fmap, Forall_forall; intros m Hm; simpl;
     split; [auto|]; by rewrite ?lookup_empty).
Qed.

(** X8: when the provider throws, [getMigrations] throws the same value to
    its caller, while [migrate] returns it as the top-level error of a result
    set without results, having invoked nothing and changed nothing but the
    creation of the log table. *)
Theorem provider_failure_is_thrown_or_returned
    (listed : Database U → bool) g w (e : E) :
  provider props = inl e →
  getMigrations props listed w = (Throw (Foreign e), w) ∧
  migrate clock props g w =
    (Return (mkResultSet (Some (Foreign e)) None), bootstrapped w).
Proof.
  intros Hprov. split.
  - unfold getMigrations, doesTableExists, query_rows, bind,
      resolveMigrations, throw, ret.
    rewrite Hprov.
    destruct (log (db w)) eqn:Hlog; [destruct (listed (db w))|]; simpl;
      by rewrite ?Hlog.
  - apply migrate_without_batch_Throw; [done|].
    pose proof (getState_cases (entered (bootstrapped w))) as Hget.
    rewrite Hprov in Hget.
    unfold run, bind. by rewrite Hget.
Qed.


(** ** More on batches *)

Lemma for_loop_Return_inv {V} (P : World U E → Prop)
    (body : nat → V → M U E V) (k i : nat) (s s' : V) w w' :
  (∀ j s0 w0 s1 w1, body j s0 w0 = (Return s1, w1) → P w0 → P w1) →
  P w →
  for_loop k i body s w = (Return s', w') →
  P w'.
Proof.
  intros Hbody. revert i s w. induction k as [|k IH]; intros i s w Hw; simpl.
  - by intros [= <- <-].
  - unfold bind. destruct (body i s w) as [[s1|t] w1] eqn:Hstep; [|done].
    apply IH. by eapply Hbody.
Qed.

Lemma migrateUp_body_keeps_table st (j : nat) results w l w1 :
  migrateUp_body clock props st j results w = (Return l, w1) →
  is_Some (log (db w1)).
Proof.
  unfold migrateUp_body.
  destruct (pendingMigrations st !! j) as [m|]; [|done].
  unfold try_catch, bind, invoke, now, exec_insert, ret, throw.
  destruct (up m (db w)) as [[e|] d']; simpl; [done|].
  destruct (log d') as [rows|]; simpl; [|done].
  destruct (rows !! name m); simpl; [done|]. intros [= <- <-]. simpl. eauto.
Qed.

Lemma migrateDown_body_keeps_table
    (toRollback : list (option (NamedMigration U E))) (j : nat)
    results w l w1 :
  migrateDown_body props toRollback j results w = (Return l, w1) →
  is_Some (log (db w)) →
  is_Some (log (db w1)).
Proof.
  unfold migrateDown_body.
  destruct (toRollback !! j) as [[m|]|]; [|done..].
  destruct (down m) as [down_op|].
  - unfold try_catch, bind, invoke, exec_delete, ret, throw.
    destruct (down_op (db w)) as [[e|] d']; simpl; [done|].
    destruct (log d') as [rows|]; simpl; [|done].
    intros [= <- <-]. simpl. eauto.
  - unfold try_catch, ret. by intros [= <- <-].
Qed.

Lemma run_keeps_table g w rs w' :
  run clock props g w = (Return rs, w') →
  is_Some (log (db w)) →
  is_Some (log (db w')).
Proof.
  unfold run, bind. destruct (getState props w) as [[st|t] w1] eqn:Hget;
    [|done].
  pose proof (getState_world _ _ _ Hget) as ->.
  destruct (length (migrations st) =? 0); [by intros [= <- <-]|].
  destruct (g st) as [dir step]. destruct (step_le_0 step);
    [by intros [= <- <-]|].
  destruct dir.
  - unfold migrateUp, bind.
    destruct (for_loop _ _ _ _ w) as [[l|t] w1] eqn:Hloop; [|done].
    intros [= <- <-] Hw.
    eapply (for_loop_Return_inv (λ w, is_Some (log (db w)))) in Hloop; eauto.
    intros j s0 w0 s1 w2 Hbody _. by eapply migrateUp_body_keeps_table.
  - unfold migrateDown, bind.
    destruct (initial_down_results _ w) as [[l0|t] w0] eqn:Hinit; [|done].
    pose proof (initial_down_results_world _ _ _ _ Hinit) as ->.
    destruct (for_loop _ _ _ _ w) as [[l|t] w1] eqn:Hloop; [|done].
    intros [= <- <-] Hw.
    eapply (for_loop_Return_inv (λ w, is_Some (log (db w)))) in Hloop; eauto.
    intros j s0 w0 s1 w2 Hbody. by eapply migrateDown_body_keeps_table.
Qed.

(** X10: when the log table could be created, and with operations that
    leave the transaction alone, the log table is there after every call of
    [migrate], whether it succeeded, failed or had nothing to do: a batch
    that an operation left without the table does not commit. *)
Theorem log_table_exists_after_migrate g w w0 rs w' :
  ensureMigrationTablesExists w = (Return tt, w0) →
  operations_keep_transaction props →
  migrate clock props g w = (Return rs, w') →
  is_Some (log (db w')).
Proof.
  intros _ Hkeep.
  destruct (migrate_cases g w) as (o & w1 & Hrun & ->).
  intros [= <- <-]. cbn [db].
  pose proof (run_keeps_transaction _ _ _ _ Hkeep Hrun) as Hbegun.
  destruct o as [rs1|t].
  - rewrite (proj1 (left_transaction_rows _ _
                      (commit_error_kept (with_log_table (db w)) (db w1)
                         Hbegun))).
    eapply run_keeps_table; [exact Hrun|]. simpl. eauto.
  - rewrite left_transaction_kept by done. simpl. eauto.
Qed.

Lemma slice0_nil {A} (step : Step) : slice0 step (@nil A) = [].
Proof.
  destruct step as [z|]; simpl; [|done].
  destruct (z <? 0)%Z; apply take_nil.
Qed.

(** X11: with a valid history, [migrate] does nothing beyond creating the
    log table, and returns an empty results list and no error, when the
    source has no migrations, when the step is zero or negative, when the
    direction is Up and nothing is pending, and when the direction is Down
    and nothing was executed. *)
Theorem nothing_to_run_is_a_no_op g w st :
  getState props (bootstrapped w) = (Return st, bootstrapped w) →
  migrations st = [] ∨
  step_le_0 (g st).2 = true ∨
  ((g st).1 = Up ∧ pendingMigrations st = []) ∨
  ((g st).1 = Down ∧ executedMigrations st = []) →
  migrate clock props g w
    = (Return (mkResultSet None (Some [])), bootstrapped w).
Proof.
  intros Hget Hwhy. apply migrate_without_batch.
  apply (proj2 (getState_entered _ _)) in Hget.
  unfold run, bind. rewrite Hget.
  destruct (Nat.eqb_spec (length (migrations st)) 0) as [|Hlen]; [done|].
  destruct (g st) as [dir step]. simpl in Hwhy.
  destruct (step_le_0 step) eqn:Hstep; [done|].
  destruct Hwhy as [Hnone|[?|[[-> Hnone]|[-> Hnone]]]]; [|done| |].
  - by rewrite Hnone in Hlen.
  - unfold migrateUp, bind. by rewrite Hnone, slice0_nil.
  - unfold migrateDown, migrationsToRollback, bind.
    by rewrite Hnone, reverse_nil, slice0_nil.
Qed.

(** X12: whatever happens in a batch, the returned results list has one
    entry per candidate, in the order of the candidates and with the
    direction of the batch: for Up the first [step] pending migrations, for
    Down the last [step] executed names, latest first. *)
Theorem results_list_the_candidates g w rs w' st l :
  migrate clock props g w = (Return rs, w') →
  getState props (bootstrapped w) = (Return st, bootstrapped w) →
  migrations st ≠ [] →
  step_le_0 (g st).2 = false →
  results rs = Some l →
  Forall (λ r, direction r = (g st).1) l ∧
  migrationName <$> l =
    match (g st).1 with
    | Up => name <$> slice0 (g st).2 (pendingMigrations st)
    | Down => slice0 (g st).2 (reverse (executedMigrations st))
    end.
Proof.
  intros Hm Hget Hsome Hstep Hres.
  apply migrate_outcome in Hm
    as [(t & Hget' & _)|(st' & Hget' & [(_ & _ & Hnothing)|Hbatch])];
    [congruence| |]; assert (st' = st) as -> by congruence.
  { destruct Hnothing as [Hlen|?]; [|congruence].
    by apply nil_length_inv in Hlen. }
  destruct Hbatch
    as (cands & skip & evs & o' & w1 & _ & _ & Hof & _ & Hb & _ & _ & Ho).
  apply batch_outcome_fresh in Hb; [|apply name_at_lookup].
  assert (length l = length cands ∧
          ∀ j r, l !! j = Some r →
                 migrationName r = name_at cands j ∧
                 direction r = (g st).1) as [Hlen Hentries].
  { destruct o' as [l'|t0].
    - destruct (commit_error _ _); subst rs; [done|].
      destruct Hb as (_ & ? & Hst). simplify_eq/=.
      split; [done|]. intros j r Hr. by rewrite (Hst _ _ Hr).
    - destruct Ho as (t & l' & ? & Ho).
      destruct (rollback_error _ _); subst rs; [done|].
      destruct Hb as (k & t' & l'' & ? & _ & _ & _ & ? & Hst). simplify_eq/=.
      split; [done|]. intros j r Hr. by rewrite (Hst _ _ Hr). }
  assert (migrationName <$> l = name <$> cands) as Hnames.
  { apply list_eq. intros j. rewrite !list_lookup_fmap.
    destruct (l !! j) as [r|] eqn:Hr; simpl.
    - destruct (Hentries _ _ Hr) as [-> _].
      destruct (lookup_lt_is_Some_2 cands j) as [m Hm'].
      { rewrite <-Hlen. by eapply lookup_lt_Some. }
      by rewrite Hm', (name_at_lookup _ _ _ Hm').
    - apply lookup_ge_None in Hr. rewrite Hlen in Hr.
      by rewrite (proj2 (lookup_ge_None cands j) Hr). }
  split.
  - apply Forall_lookup. intros j r Hr. by apply (Hentries _ _ Hr).
  - rewrite Hnames. unfold batch_of in Hof. destruct ((g st).1).
    + by destruct Hof as [-> _].
    + destruct Hof as [Hcands _]. by apply found_names in Hcands.
Qed.

(** The batch loop that [migrate] runs for the direction Up. *)
Lemma migrate_Up_loop g w rs w' st (step : Step) :
  migrate clock props g w = (Return rs, w') →
  getState props (bootstrapped w) = (Return st, bootstrapped w) →
  migrations st ≠ [] →
  g st = (Up, step) →
  step_le_0 step = false →
  ∃ o w1,
    for_loop (length (slice0 step (pendingMigrations st))) 0
      (migrateUp_body clock props st)
      (fresh_results Up (slice0 step (pendingMigrations st)))
      (entered (bootstrapped w)) = (o, w1) ∧
    history w' = history w1 ∧
    ticks w' = ticks w1 ∧
    db w' = left_transaction (db (bootstrapped w)) (db w1)
              (match o with Return _ => true | Throw _ => false end) ∧
    match o with
    | Return l =>
        match commit_error (db (bootstrapped w)) (db w1) with
        | None => rs = mkResultSet None (Some l)
        | Some t => rs = mkResultSet (Some t) None
        end
    | Throw t =>
        rs = match rollback_error (db (bootstrapped w)) (db w1) with
             | Some t' => mkResultSet (Some t') None
             | None =>
                 match t with
                 | MigrationResultSetError err res => mkResultSet err res
                 | _ => mkResultSet (Some t) None
                 end
             end
    end.
Proof.
  intros Hm Hget Hsome Hg Hstep.
  destruct (migrate_cases g w) as (o & w1 & Hrun & Hm').
  rewrite Hm' in Hm. clear Hm'.
  apply (proj2 (getState_entered _ _)) in Hget.
  unfold run, bind in Hrun. rewrite Hget, Hg, Hstep in Hrun.
  destruct (Nat.eqb_spec (length (migrations st)) 0) as [Hlen|_].
  { by apply nil_length_inv in Hlen. }
  unfold migrateUp, bind in Hrun. rewrite length_fmap in Hrun.
  fold (fresh_results Up (slice0 step (pendingMigrations st))) in Hrun.
  destruct (for_loop _ _ _ _ _) as [[l|t] w2] eqn:Hloop.
  - exists (Return l), w2. unfold ret in Hrun. simplify_eq.
    split_and!; [done..|]. by destruct (commit_error _ _).
  - exists (Throw t), w2. by simplify_eq.
Qed.

Lemma take_length_slice0 {A} (step : Step) (l : list A) :
  take (length (slice0 step l)) l = slice0 step l.
Proof.
  destruct (slice0_take step l) as [k ->]. rewrite length_take.
  destruct (decide (k ≤ length l)).
  - by rewrite Nat.min_l.
  - rewrite Nat.min_r, !take_ge by lia. done.
Qed.

Lemma migrateUp_loop_history st (k i : nat) results w l w1 :
  i + k ≤ length (pendingMigrations st) →
  for_loop k i (migrateUp_body clock props st) results w = (Return l, w1) →
  history w1 =
    history w ++ up_events clock (take k (drop i (pendingMigrations st)))
                   (ticks w) ∧
  ticks w1 = ticks w + k.
Proof.
  revert i results w. induction k as [|k IH]; intros i results w Hlen; simpl.
  - intros [= <- <-]. by rewrite (right_id_L [] (++)), Nat.add_0_r.
  - destruct (lookup_lt_is_Some_2 (pendingMigrations st) i) as [m Hm]; [lia|].
    rewrite (drop_S _ _ _ Hm). simpl.
    unfold bind at 1, migrateUp_body at 1. rewrite Hm.
    unfold try_catch, bind, invoke, now, exec_insert, ret, throw.
    destruct (up m (db w)) as [[e|] d'] eqn:Hup; simpl; [done|].
    destruct (log d') as [rows|]; simpl; [|done].
    destruct (rows !! name m) eqn:Hrow; simpl; [done|].
    intros Hloop. apply IH in Hloop as [-> ->]; [|lia]. simpl.
    split; [|lia]. by rewrite <-!(assoc_L (++)).
Qed.

Lemma StronglySorted_sublist {A} (R : relation A) (l1 l2 : list A) :
  sublist l1 l2 → StronglySorted R l2 → StronglySorted R l1.
Proof.
  induction 1 as [|x l1 l2 Hs IH|x l1 l2 Hs IH]; intros Hsorted.
  - constructor.
  - apply StronglySorted_cons in Hsorted as [Hx Hl2].
    apply StronglySorted_cons. split; [|auto].
    apply Forall_forall. intros y Hy.
    eapply Forall_forall in Hx; [exact Hx|].
    by apply (sublist_subseteq _ _ Hs).
  - apply StronglySorted_cons in Hsorted as [_ ?]. auto.
Qed.

(** X13: an Up batch that returns no error has invoked the [up] of each
    candidate once, in ascending name order, each followed by the insert of
    its log row stamped with the next reading of the clock, and nothing
    else; every entry of the results is [Success].  The order of the names
    is the one of [sort()], by UTF-16 code unit. *)
Theorem successful_up_batch_runs_in_name_order g w rs w' st (step : Step) :
  migrate clock props g w = (Return rs, w') →
  getState props (bootstrapped w) = (Return st, bootstrapped w) →
  migrations st ≠ [] →
  g st = (Up, step) →
  step_le_0 step = false →
  error rs = None →
  results rs =
    Some ((λ m, mkResult (name m) Up Success)
            <$> slice0 step (pendingMigrations st)) ∧
  history w' =
    history w ++ up_events clock (slice0 step (pendingMigrations st))
                   (ticks w) ∧
  ticks w' = ticks w + length (slice0 step (pendingMigrations st)) ∧
  Sorted code_unit_le (name <$> slice0 step (pendingMigrations st)).
Proof.
  intros Hm Hget Hsome Hg Hstep Herr.
  set (cands := slice0 step (pendingMigrations st)).
  pose proof Hm as (o & w1 & Hloop & Ho)%(migrate_Up_loop _ _ _ _ st step);
    [|done..].
  fold cands in Hloop.
  assert (length cands ≤ length (pendingMigrations st)) as Hlen.
  { unfold cands. destruct (slice0_take step (pendingMigrations st))
      as [k ->]. rewrite length_take. lia. }
  pose proof Hloop as Hbatch.
  apply (for_loop_batch Up (name_at cands) (λ _, false)) in Hbatch
    as (evs & _ & Hb).
  2:{ intros j [_ Hj]. simpl in Hj.
      apply lookup_lt_is_Some in Hj as [m Hj].
      rewrite (name_at_lookup _ _ _ Hj). apply migrateUp_body_ok.
      unfold cands in Hj. destruct (slice0_take step (pendingMigrations st))
        as [k Hk]. rewrite Hk in Hj. by apply lookup_take_Some in Hj as [? _]. }
  2:{ unfold fresh_results. by rewrite length_fmap. }
  apply batch_outcome_fresh in Hb; [|apply name_at_lookup].
  destruct Ho as (Hh' & Ht' & _ & Ho). destruct o as [l|t0].
  - destruct (commit_error _ _); subst rs; [done|].
    destruct Hb as (_ & Hll & Hst).
    apply migrateUp_loop_history in Hloop as [Hh Ht]; [|simpl; lia].
    rewrite drop_0 in Hh. unfold cands in Hh at 1.
    rewrite take_length_slice0 in Hh. simpl in Hh, Ht.
    split_and!; [|by rewrite Hh', Hh|by rewrite Ht', Ht|].
    + simpl. f_equal. apply list_eq. intros j. rewrite list_lookup_fmap.
      destruct (l !! j) as [r|] eqn:Hr.
      * rewrite (Hst _ _ Hr).
        destruct (lookup_lt_is_Some_2 cands j) as [m Hj].
        { rewrite <-Hll. by eapply lookup_lt_Some. }
        fold cands. by rewrite Hj, (name_at_lookup _ _ _ Hj).
      * apply lookup_ge_None in Hr. rewrite Hll in Hr. fold cands.
        by rewrite (proj2 (lookup_ge_None cands j) Hr).
    + pose proof (getState_names _ _ _ Hget) as (_ & Hsorted & _).
      apply Sorted_StronglySorted in Hsorted; [|apply _].
      apply StronglySorted_Sorted.
      pose proof (getState_Return _ _ _ Hget)
        as (? & ? & _ & _ & _ & _ & _ & Hpend & _).
      assert (sublist (name <$> cands) (name <$> migrations st)) as Hsub.
      { apply fmap_sublist. unfold cands.
        destruct (slice0_take step (pendingMigrations st)) as [k ->].
        etrans; [apply sublist_take|].
        rewrite Hpend, getPendingMigrations_filter. apply sublist_filter. }
      by eapply StronglySorted_sublist.
  - exfalso. destruct Hb as (k & t & l & -> & _).
    destruct (rollback_error _ _); by subst rs.
Qed.

Lemma stamp_lookup_notin (ms : list (NamedMigration U E)) (tick : nat)
    (rows : gmap string string) n :
  n ∉ name <$> ms → stamp clock ms tick rows !! n = rows !! n.
Proof.
  revert tick rows. induction ms as [|m ms IH]; intros tick rows; csimpl;
    [done|].
  rewrite not_elem_of_cons. intros [Hne Hn].
  by rewrite IH, lookup_insert_ne.
Qed.

Lemma stamp_lookup_in (ms : list (NamedMigration U E)) (tick j : nat)
    (rows : gmap string string) (m : NamedMigration U E) :
  NoDup (name <$> ms) →
  ms !! j = Some m →
  stamp clock ms tick rows !! name m = Some (clock (tick + j)).
Proof.
  revert tick j rows. induction ms as [|m0 ms IH]; intros tick j rows; csimpl;
    [done|].
  rewrite NoDup_cons. intros [Hm0 Hnodup]. destruct j as [|j]; simpl.
  - intros [= ->]. rewrite stamp_lookup_notin by done.
    by rewrite lookup_insert_eq, Nat.add_0_r.
  - intros Hj. rewrite (IH (S tick) j) by done. f_equal. f_equal. lia.
Qed.

Lemma slice0_pending_facts st w (step : Step) (rows : gmap string string) :
  getState props w = (Return st, w) →
  log (db w) = Some rows →
  NoDup (name <$> slice0 step (pendingMigrations st)) ∧
  (∀ m : NamedMigration U E,
     m ∈ slice0 step (pendingMigrations st) →
     rows !! name m = None ∧ m ∈ migrations st).
Proof.
  intros Hget Hlog.
  pose proof (getState_names _ _ _ Hget) as (Hnodup & _).
  apply getState_Return in Hget
    as (all & rows' & _ & Hlog' & _ & Hex & _ & Hpend & _).
  assert (rows' = rows) as -> by congruence.
  assert (sublist (slice0 step (pendingMigrations st)) (migrations st))
    as Hsub.
  { destruct (slice0_take step (pendingMigrations st)) as [k ->].
    etrans; [apply sublist_take|].
    rewrite Hpend, getPendingMigrations_filter. apply sublist_filter. }
  split.
  - eapply sublist_NoDup; [exact Hnodup|]. by apply fmap_sublist.
  - intros m Hm. split; [|by apply (sublist_subseteq _ _ Hsub)].
    apply slice0_subseteq in Hm.
    rewrite Hpend, getPendingMigrations_filter, list_elem_of_filter in Hm.
    destruct Hm as [Hm _]. apply eq_None_not_Some. intros Hsome.
    apply Hm. rewrite Hex. by apply elem_of_select_names.
Qed.



(** X15: when no [up] operation touches the log table, an Up batch that
    returns no error leaves in the log one row per candidate, stamped with
    the reading of the clock taken for it, and every other row as it was;
    with an unbounded step the log then names exactly the migrations of the
    source. *)
Theorem successful_up_batch_logs_its_candidates g w rs w' st (step : Step) :
  (∀ m : NamedMigration U E, m ∈ migrations st → keeps_log (up m)) →
  migrate clock props g w = (Return rs, w') →
  getState props (bootstrapped w) = (Return st, bootstrapped w) →
  migrations st ≠ [] →
  g st = (Up, step) →
  step_le_0 step = false →
  error rs = None →
  (∀ j m, slice0 step (pendingMigrations st) !! j = Some m →
          executedRows (db w') !! name m = Some (clock (ticks w + j))) ∧
  (∀ n, n ∉ name <$> slice0 step (pendingMigrations st) →
        executedRows (db w') !! n = executedRows (db w) !! n) ∧
  (step = Infinity →
   ∀ n, is_Some (executedRows (db w') !! n) ↔ n ∈ name <$> migrations st).
Proof.
  intros Hkeep Hm Hget Hsome Hg Hstep Herr.
  set (cands := slice0 step (pendingMigrations st)).
  pose proof Hm as (o & w1 & Hloop & _ & _ & Hdb & Ho)
    %(migrate_Up_loop _ _ _ _ st step); [|done..].
  pose proof (slice0_pending_facts st (bootstrapped w) step
                (executedRows (db w)) Hget eq_refl) as [Hnodup Hfresh].
  pose proof (getState_Return _ _ _ Hget)
    as (all & rows0 & _ & Hlog0 & _ & Hex & _ & Hpend & _).
  simpl in Hlog0. injection Hlog0 as <-.
  pose proof (getState_names _ _ _ Hget) as (_ & _ & _ & Hknown).
  assert (length cands ≤ length (pendingMigrations st)) as Hlen.
  { unfold cands. destruct (slice0_take step (pendingMigrations st))
      as [k ->]. rewrite length_take. lia. }
  destruct o as [l|t0]; last first.
  { exfalso. subst rs. fold cands in Hloop.
    apply (for_loop_batch Up (name_at cands) (λ _, false)) in Hloop
      as (evs & _ & _ & k & t & l & -> & _).
    - by destruct (rollback_error _ _).
    - intros j [_ Hj]. simpl in Hj.
      apply lookup_lt_is_Some in Hj as [m Hj].
      rewrite (name_at_lookup _ _ _ Hj). apply migrateUp_body_ok.
      unfold cands in Hj. destruct (slice0_take step (pendingMigrations st))
        as [k Hk]. rewrite Hk in Hj. by apply lookup_take_Some in Hj as [? _].
    - unfold fresh_results. by rewrite length_fmap. }
  eapply (migrateUp_loop_log _ _ _ _ _ _ _ (executedRows (db w))) in Hloop;
    [| |done|exact Hlen].
  2:{ intros m Hm'. apply Hkeep.
      rewrite Hpend, getPendingMigrations_filter in Hm'.
      by apply list_elem_of_filter in Hm' as [_ ?]. }
  rewrite drop_0, take_length_slice0 in Hloop. fold cands in Hloop.
  simpl in Hloop.
  assert (commit_error (E:=E) (db (bootstrapped w)) (db w1) = None)
    as Hcommit.
  { destruct (commit_error _ _); [by subst rs|done]. }
  assert (executedRows (db w')
          = stamp clock cands (ticks w) (executedRows (db w))) as ->.
  { unfold executedRows at 1.
    by rewrite Hdb, (proj1 (left_transaction_rows _ _ Hcommit)), Hloop. }
  assert (∀ n, n ∈ name <$> pendingMigrations st ↔
               n ∈ name <$> migrations st ∧ n ∉ executedMigrations st)
    as Hpending.
  { intros n. rewrite Hpend, getPendingMigrations_filter, !list_elem_of_fmap.
    split.
    - intros (m & -> & [? ?]%list_elem_of_filter). eauto.
    - intros [(m & -> & ?) ?]. exists m. by rewrite list_elem_of_filter. }
  split_and!.
  - intros j m Hj. by apply stamp_lookup_in.
  - intros n Hn. by apply stamp_lookup_notin.
  - intros ->. unfold cands. simpl. intros n.
    destruct (decide (n ∈ name <$> pendingMigrations st)) as [Hin|Hnot].
    + apply list_elem_of_fmap in Hin as Hin'. destruct Hin' as (m & -> & Hm').
      apply list_elem_of_lookup in Hm' as [j Hj].
      rewrite (stamp_lookup_in _ _ j) by done.
      split; [|by eexists]. intros _. by apply Hpending.
    + rewrite stamp_lookup_notin by done.
      assert (is_Some (executedRows (db w) !! n) ↔ n ∈ executedMigrations st)
        as ->.
      { rewrite Hex. symmetry. apply elem_of_select_names. }
      split; [by apply Hknown|]. intros Hn.
      destruct (decide (n ∈ executedMigrations st)); [done|].
      exfalso. apply Hnot. by apply Hpending.
Qed.

Lemma unlog_lookup_None (ms : list (NamedMigration U E))
    (rows : gmap string string) n :
  rows !! n = None → unlog ms rows !! n = None.
Proof.
  revert rows. induction ms as [|m ms IH]; intros rows Hn; simpl; [done|].
  apply IH. destruct (down m); [|done].
  rewrite lookup_delete_None. auto.
Qed.

Lemma unlog_lookup_in (ms : list (NamedMigration U E))
    (rows : gmap string string) (m : NamedMigration U E) :
  m ∈ ms → is_Some (down m) → unlog ms rows !! name m = None.
Proof.
  revert rows. induction ms as [|m0 ms IH]; intros rows; simpl.
  - by rewrite elem_of_nil.
  - rewrite elem_of_cons. intros [->|Hin] Hdown; [|by apply IH].
    destruct Hdown as [op ->]. apply unlog_lookup_None, lookup_delete_eq.
Qed.

Lemma unlog_lookup_notin (ms : list (NamedMigration U E))
    (rows : gmap string string) n :
  (∀ m : NamedMigration U E, m ∈ ms → is_Some (down m) → name m ≠ n) →
  unlog ms rows !! n = rows !! n.
Proof.
  revert rows. induction ms as [|m ms IH]; intros rows Hn; simpl; [done|].
  rewrite IH by (intros m' ?; apply Hn; by right).
  destruct (down m) as [op|] eqn:Hdown; [|done].
  apply lookup_delete_ne. apply Hn; [by left|by rewrite Hdown].
Qed.

Lemma migrateDown_loop_log (cands : list (NamedMigration U E)) (k i : nat)
    results w l w1 (rows : gmap string string) :
  (∀ (m : NamedMigration U E) op,
     m ∈ cands → down m = Some op → keeps_log op) →
  log (db w) = Some rows →
  i + k ≤ length cands →
  for_loop k i (migrateDown_body props (Some <$> cands)) results w
    = (Return l, w1) →
  log (db w1) = Some (unlog (take k (drop i cands)) rows) ∧
  ticks w1 = ticks w.
Proof.
  intros Hkeep. revert i results w rows.
  induction k as [|k IH]; intros i results w rows Hlog Hlen; simpl.
  - by intros [= <- <-].
  - destruct (lookup_lt_is_Some_2 cands i) as [m Hm]; [lia|].
    rewrite (drop_S _ _ _ Hm). simpl.
    unfold bind at 1, migrateDown_body at 1.
    rewrite list_lookup_fmap, Hm. simpl.
    destruct (down m) as [down_op|] eqn:Hdown.
    + unfold try_catch, bind, invoke, exec_delete, ret, throw.
      pose proof (Hkeep m down_op ltac:(by eapply list_elem_of_lookup_2)
                    Hdown (db w)) as Hop.
      destruct (down_op (db w)) as [[e|] d'] eqn:Hrun; simpl in *; [done|].
      rewrite Hop, Hlog. simpl. intros Hloop.
      eapply IH in Hloop; [exact Hloop|done|lia].
    + unfold try_catch, ret. intros Hloop.
      eapply IH in Hloop; [exact Hloop|done|lia].
Qed.

(** X16: when no [down] operation touches the log table, a Down batch that
    returns no error has removed from the log the rows of its candidates
    that have a [down], and no other row: the rows of candidates without a
    [down] and of migrations outside the batch are as they were. *)
Theorem successful_down_batch_unlogs_its_candidates g w rs w' st
    (step : Step) (cands : list (NamedMigration U E)) :
  (∀ (m : NamedMigration U E) op,
     m ∈ migrations st → down m = Some op → keeps_log op) →
  migrate clock props g w = (Return rs, w') →
  getState props (bootstrapped w) = (Return st, bootstrapped w) →
  migrations st ≠ [] →
  g st = (Down, step) →
  step_le_0 step = false →
  migrationsToRollback st step = Some <$> cands →
  error rs = None →
  (∀ m : NamedMigration U E,
     m ∈ cands → is_Some (down m) →
     executedRows (db w') !! name m = None) ∧
  (∀ n, (∀ m : NamedMigration U E,
           m ∈ cands → is_Some (down m) → name m ≠ n) →
        executedRows (db w') !! n = executedRows (db w) !! n) ∧
  ticks w' = ticks w.
Proof.
  intros Hkeep Hm Hget Hsome Hg Hstep Hcands Herr.
  destruct (migrate_cases g w) as (o & w1 & Hrun & Hm').
  rewrite Hm' in Hm. clear Hm'.
  pose proof Hget as Hget'%(proj2 (getState_entered _ _)).
  unfold run, bind in Hrun. rewrite Hget', Hg, Hstep in Hrun.
  destruct (Nat.eqb_spec (length (migrations st)) 0) as [Hlen|_].
  { by apply nil_length_inv in Hlen. }
  unfold migrateDown, bind in Hrun.
  rewrite Hcands, initial_down_results_Some, length_fmap in Hrun.
  destruct (for_loop _ _ _ _ _) as [[l|t] w2] eqn:Hloop.
  - unfold ret in Hrun. simplify_eq.
    assert (commit_error (E:=E) (with_log_table (db w)) (db w1) = None)
      as Hcommit.
    { simpl in Herr. by destruct (commit_error _ _). }
    eapply (migrateDown_loop_log _ _ _ _ _ _ _ (executedRows (db w)))
      in Hloop as [Hlog Hticks]; [| |done|simpl; lia].
    + rewrite drop_0, take_ge in Hlog by done. simpl.
      assert (executedRows
                (left_transaction (with_log_table (db w)) (db w1) true)
              = unlog cands (executedRows (db w))) as ->.
      { unfold executedRows at 1.
        by rewrite (proj1 (left_transaction_rows _ _ Hcommit)), Hlog. }
      split_and!; [| |done].
      * intros m ? ?. by apply unlog_lookup_in.
      * intros n ?. by apply unlog_lookup_notin.
    + intros m op Hin. apply Hkeep.
      apply list_elem_of_lookup in Hin as [j Hj].
      eapply (find_by_name_elem _ (name m)).
      assert ((find_by_name (migrations st)
                 <$> slice0 step (reverse (executedMigrations st))) !! j
              = Some (Some m)) as Hfind.
      { unfold migrationsToRollback in Hcands.
        by rewrite Hcands, list_lookup_fmap, Hj. }
      apply list_lookup_fmap_Some in Hfind as (n & Hfind & _).
      by rewrite (find_by_name_name _ _ _ (eq_sym Hfind)) at 1.
  - exfalso. simplify_eq.
    apply (for_loop_batch Down (name_at cands) (skipped_at cands)) in Hloop
      as (evs & _ & _ & k & t' & l & -> & _).
    + by destruct (rollback_error _ _).
    + intros j [_ Hj]. simpl in Hj.
      apply lookup_lt_is_Some in Hj as [m Hj].
      unfold name_at, skipped_at. rewrite Hj. simpl.
      apply migrateDown_body_ok. by rewrite list_lookup_fmap, Hj.
    + by rewrite length_fmap.
Qed.

(** ** What the corrupted-migrations errors say *)

Lemma ensureNoMissingMigrations_first ms (before after : list string) n w :
  before ⊆ name <$> ms →
  n ∉ name <$> ms →
  ensureNoMissingMigrations ms (before ++ n :: after) w =
    (Throw (JsError ("corrupted migrations: previously executed migration "
                     +:+ n +:+ " is missing")), w).
Proof.
  intros Hbefore Hn. induction before as [|x before IH]; simpl.
  - replace (existsb _ ms) with false; [done|].
    symmetry. apply not_true_is_false. by rewrite existsb_name.
  - replace (existsb _ ms) with true.
    + simpl. apply IH. intros y ?. apply Hbefore. by right.
    + symmetry. apply existsb_name, Hbefore. by left.
Qed.

Lemma ensureMigrationsInOrder_from_first ms (i j : nat) (rest : list string)
    n (m : NamedMigration U E) w :
  take j rest = take j (drop i (name <$> ms)) →
  rest !! j = Some n →
  ms !! (i + j) = Some m →
  name m ≠ n →
  ensureMigrationsInOrder_from ms i rest w =
    (Throw (JsError
       ("corrupted migrations: expected previously executed migration "
        +:+ n +:+ " to be at index " +:+ pretty (i + j) +:+ " but "
        +:+ name m +:+ " was found in its place. New migrations must always have a name that comes alphabetically after the last executed migration.")),
     w).
Proof.
  revert i rest. induction j as [|j IH]; intros i [|x rest] Htake Hn Hm Hne;
    try done; simpl in Hn.
  - rewrite Nat.add_0_r in *. simplify_eq. cbn [ensureMigrationsInOrder_from].
    rewrite Hm. by rewrite (proj2 (String.eqb_neq _ _) Hne).
  - cbn [ensureMigrationsInOrder_from].
    destruct (ms !! i) as [m0|] eqn:Hm0.
    + rewrite (drop_S _ (name m0)) in Htake
        by (by rewrite list_lookup_fmap, Hm0).
      simpl in Htake. injection Htake as -> Htake.
      rewrite String.eqb_refl. simpl.
      rewrite (IH (S i) rest) by
        (done || by replace (S i + j) with (i + S j) by lia).
      by replace (S i + j) with (i + S j) by lia.
    + rewrite drop_ge in Htake; [by rewrite take_nil in Htake|].
      rewrite length_fmap. by apply lookup_ge_None.
Qed.

(** X17: a corrupted-migrations error names the first offender.  When the
    log names migrations that the source does not have, the error names the
    first of them in the order of the log; otherwise, when the log is out of
    order, it names the first position at which the log and the sorted
    migration list differ, with the name executed at that position and the
    name found in the list. *)
Theorem corrupted_error_names_the_first_offender g w
    (all : gmap string (Migration U E)) :
  provider props = inr all →
  (∀ before n after,
     select_names (executedRows (db w)) = before ++ n :: after →
     before ⊆ sorted_keys all →
     n ∉ sorted_keys all →
     migrate clock props g w =
       (Return (mkResultSet
          (Some (JsError
             ("corrupted migrations: previously executed migration "
              +:+ n +:+ " is missing")))
          None),
        bootstrapped w)) ∧
  (∀ (i : nat) n found,
     allowUnorderedMigrations props = false →
     select_names (executedRows (db w)) ⊆ sorted_keys all →
     take i (select_names (executedRows (db w))) = take i (sorted_keys all) →
     select_names (executedRows (db w)) !! i = Some n →
     sorted_keys all !! i = Some found →
     found ≠ n →
     migrate clock props g w =
       (Return (mkResultSet
          (Some (JsError
             ("corrupted migrations: expected previously executed migration "
              +:+ n +:+ " to be at index " +:+ pretty i +:+ " but "
              +:+ found +:+ " was found in its place. New migrations must always have a name that comes alphabetically after the last executed migration.")))
          None),
        bootstrapped w)).
Proof.
  intros Hprov.
  assert (∀ msg : string, getState props (bootstrapped w) = (Throw (JsError msg),
                                                   bootstrapped w) →
               migrate clock props g w =
                 (Return (mkResultSet (Some (JsError msg)) None),
                  bootstrapped w)) as Hmigrate.
  { intros msg Hget. apply migrate_without_batch_Throw; [done|].
    apply (proj2 (getState_entered _ _)) in Hget.
    unfold run, bind. by rewrite Hget. }
  split.
  - intros before n after Hex Hbefore Hn. apply Hmigrate.
    unfold getState, bind, resolveMigrations, getExecutedMigrations,
      query_names, ret. rewrite Hprov. simpl.
    fold (executedRows (db w)). rewrite Hex.
    rewrite ensureNoMissingMigrations_first; [done|..];
      by rewrite resolved_names.
  - intros i n found Hallow Hsub Htake Hn Hfound Hne. apply Hmigrate.
    unfold getState, bind, resolveMigrations, getExecutedMigrations,
      query_names, ret. rewrite Hprov. simpl.
    fold (executedRows (db w)).
    destruct (ensureNoMissingMigrations_cases (resolved all)
                (select_names (executedRows (db w))) (bootstrapped w))
      as [[_ ->]|[Hbad _]]; [|by rewrite resolved_names in Hbad].
    rewrite Hallow. simpl. unfold ensureMigrationsInOrder.
    assert (∃ m : NamedMigration U E,
              resolved all !! i = Some m ∧ name m = found) as (m & Hm & <-).
    { rewrite <-resolved_names, list_lookup_fmap in Hfound.
      destruct (resolved all !! i) as [m|]; simplify_eq/=. eauto. }
    rewrite (ensureMigrationsInOrder_from_first _ 0 i _ n m); try done.
    by rewrite drop_0, resolved_names.
Qed.

(** ** The step only matters through the slice it takes *)

(** X18: going up by a step that is at least the number of pending
    migrations is [migrateToLatest]: same result set, same database, same
    invocations. *)
Theorem step_beyond_pending_is_migrateToLatest g w :
  (∀ st, getState props (bootstrapped w) = (Return st, bootstrapped w) →
         ∃ z, g st = (Up, Finite z) ∧
              (Z.of_nat (length (pendingMigrations st)) ≤ z)%Z) →
  migrate clock props g w = migrateToLatest clock props w.
Proof.
  intros Hg.
  assert (run clock props g (entered (bootstrapped w)) =
          run clock props (λ _, (Up, Infinity)) (entered (bootstrapped w)))
    as Hrun.
  { unfold run, bind.
    destruct (getState props (entered (bootstrapped w))) as [[st|t] w1]
      eqn:Hget; [|done].
    pose proof (getState_world _ _ _ Hget) as ->.
    apply (proj1 (getState_entered _ _)) in Hget.
    destruct (Hg st Hget) as (z & -> & Hz).
    destruct (length (migrations st) =? 0)%nat; [done|]. simpl.
    destruct (z <=? 0)%Z eqn:Hz0.
    - apply Z.leb_le in Hz0.
      assert (pendingMigrations st = []) as Hnil
        by (apply length_zero_iff_nil; lia).
      unfold migrateUp. by rewrite Hnil.
    - apply Z.leb_gt in Hz0. unfold migrateUp, slice0.
      destruct (z <? 0)%Z eqn:Hneg; [apply Z.ltb_lt in Hneg; lia|].
      by rewrite take_ge by lia. }
  unfold migrateToLatest.
  destruct (migrate_cases g w) as (o & w1 & Hrun1 & ->).
  destruct (migrate_cases (λ _, (Up, Infinity)) w) as (o' & w1' & Hrun2 & ->).
  rewrite Hrun, Hrun2 in Hrun1. by simplify_eq.
Qed.

End Properties.

(** * The theorems at the concrete scenarios *)

Section Scenarios.

Import Scenario.

Lemma source_abc_keeps_transaction : operations_keep_transaction props_abc.
Proof.
  intros all n m [= <-] Hm. unfold source_abc in Hm.
  repeat (apply lookup_insert_Some in Hm as [[_ <-]|[_ Hm]];
          [split; [done|by intros op [= <-]]|]).
  apply lookup_singleton_Some in Hm as [_ <-].
  split; [done|by intros op [= <-]].
Qed.



Lemma corrupted_history_is_fatal_witness :
  ∃ t w',
    migrate clock props_abc to_latest world_orphan
      = (Return (mkResultSet (Some t) None), w') ∧
    is_corrupted_error t = true ∧
    history w' = history world_orphan ∧
    db w' = with_log_table (db world_orphan) ∧
    executedRows (db w') = executedRows (db world_orphan).
Proof.
  apply (corrupted_history_is_fatal clock props_abc to_latest world_orphan
           source_abc).
  - reflexivity.
  - left. exists "000_x". split; apply (bool_decide_unpack _); vm_compute;
      exact I.
Defined.

Lemma first_error_stops_the_batch_witness :
  ([] : list (Event string)) = [] ∧
  quiet (take 4 evs_abc) ∧
  ((error rs_abc = Some (Foreign "boom") ∧
    ∃ l i, results rs_abc = Some l ∧
           l !! i = Some (mkResult "003_c" Up Error) ∧
           ∀ j r, l !! j = Some r → i < j → status r = NotExecuted) ∨
   (inTransaction (db world_fresh) = true ∧
    ¬ operations_keep_transaction props_abc ∧
    error rs_abc = Some no_such_savepoint ∧ results rs_abc = None)).
Proof.
  apply (proj1 (first_error_stops_the_batch clock props_abc to_latest
                  world_fresh rs_abc world_abc_failed evs_abc
                  ltac:(vm_compute; reflexivity)
                  ltac:(vm_compute; reflexivity))).
  reflexivity.
Defined.

(** C3 as stated fails when [migrate] is called inside a transaction and an
    operation ends that transaction.  [001_a] commits the transaction of the
    caller and begins its own; [002_b] throws.  The wrapper, a transaction
    being active, rolls back to its savepoint, which went with the
    transaction it was set in: what this throws is the error of the call,
    and the call has no results. *)
Lemma first_error_stops_the_batch_counterexample :
  inTransaction (db world_nested) = true ∧
  migrateToLatest clock props_restart world_nested
    = (Return (mkResultSet (Some no_such_savepoint) None), world_restart) ∧
  Invoked Up "002_b" (Some "boom") ∈ history world_restart.
Proof.
  split_and!; [reflexivity|vm_compute; reflexivity|].
  do 2 right. left.
Qed.

Lemma migrate_result_has_results_or_error_witness :
  is_Some (results rs_abc) ∨ (is_Some (error rs_abc) ∧ results rs_abc = None).
Proof.
  apply (migrate_result_has_results_or_error clock props_abc to_latest
           world_fresh rs_abc world_abc_failed).
  vm_compute. reflexivity.
Defined.




Lemma migrateToLatest_twice_witness :
  migrateToLatest clock props_posts world_init_migrated
    = (Return (mkResultSet None (Some [])), world_init_migrated).
Proof.
  apply (migrateToLatest_twice clock props_posts world_init rs_init
           world_init_migrated).
  - intros all n m [= <-] Hm d. unfold source_posts in Hm.
    apply lookup_insert_Some in Hm as [[_ <-]|[_ Hm]]; [reflexivity|].
    apply lookup_singleton_Some in Hm as [_ <-]. reflexivity.
  - right. split_and!.
    + intros all [= <-]. apply (bool_decide_unpack _). vm_compute. exact I.
    + intros i j _. vm_compute. exact I.
    + intros n ts Hrow.
      change (executedRows (db world_init))
        with ({[ "001_init" := "2026-01-01T00:00:00.000Z" ]}
              : gmap string string) in Hrow.
      apply lookup_singleton_Some in Hrow as [_ <-].
      apply (bool_decide_unpack _). vm_compute. exact I.
  - vm_compute. reflexivity.
  - reflexivity.
Defined.

Lemma pendingMigrations_is_migrations_minus_executed_witness :
  pendingMigrations state_ab =
    filter (λ m, name m ∉ executedMigrations state_ab) (migrations state_ab) ∧
  sublist (pendingMigrations state_ab) (migrations state_ab) ∧
  (∀ m, m ∈ pendingMigrations state_ab ↔
        m ∈ migrations state_ab ∧ name m ∉ executedMigrations state_ab) ∧
  Sorted code_unit_le (name <$> migrations state_ab).
Proof.
  apply (pendingMigrations_is_migrations_minus_executed props_abc world_ab
           state_ab world_ab).
  vm_compute. reflexivity.
Defined.

Lemma rollback_lookup_is_defined_witness :
  Forall is_Some (migrationsToRollback state_ab Infinity).
Proof.
  apply (rollback_lookup_is_defined props_abc world_ab state_ab world_ab
           Infinity).
  vm_compute. reflexivity.
Defined.

(** C8 as stated fails: the log holds [001_init] with a timestamp later than
    the clock; the first [migrateToLatest] runs [002_posts] and returns no
    error; the second finds [002_posts] before [001_init] in the log and
    returns a corrupted-migrations error and no results. *)
Lemma migrateToLatest_twice_counterexample :
  migrateToLatest clock props_posts world_late
    = (Return (mkResultSet None (Some [mkResult "002_posts" Up Success])),
       world_late_migrated) ∧
  migrateToLatest clock props_posts world_late_migrated
    = (Return (mkResultSet
                 (Some (JsError "corrupted migrations: expected previously executed migration 002_posts to be at index 0 but 001_init was found in its place. New migrations must always have a name that comes alphabetically after the last executed migration."))
                 None),
       world_late_migrated).
Proof. split; vm_compute; reflexivity. Qed.

(** The names must sort alike in both orders.  [sort()] puts U+1F600 before
    U+FF5E, the log puts U+FF5E first when both rows have the same
    timestamp: on a fresh database the first [migrateToLatest] runs both
    migrations and returns no error, and the second returns a
    corrupted-migrations error. *)
Lemma second_call_needs_names_in_byte_order :
  sorted_keys source_unicode = [grinning_face; fullwidth_tilde] ∧
  (∃ w1,
     migrateToLatest clock props_unicode world_fresh
       = (Return (mkResultSet None
                    (Some [mkResult grinning_face Up Success;
                           mkResult fullwidth_tilde Up Success])), w1) ∧
     select_names (executedRows (db w1)) = [fullwidth_tilde; grinning_face] ∧
     ∃ t, migrateToLatest clock props_unicode w1
            = (Return (mkResultSet (Some t) None), w1) ∧
          is_corrupted_error t = true).
Proof.
  split; [vm_compute; reflexivity|].
  eexists. split; [vm_compute; reflexivity|].
  split; [vm_compute; reflexivity|].
  eexists. split; vm_compute; reflexivity.
Qed.

Lemma loaded_file_name_is_key_dot_extension_witness :
  ∃ ext, ext ∈ ["js"; "ts"; "mjs"; "mts"] ∧
         "001_init.ts" = migrationKey "001_init.ts" +:+ "." +:+ ext.
Proof.
  apply (loaded_file_name_is_key_dot_extension "001_init.ts"). reflexivity.
Defined.

Lemma declaration_files_are_not_loaded_witness :
  is_migration_file ("001_init" +:+ "." +:+ "md") = false.
Proof.
  apply (proj2 (proj2 (declaration_files_are_not_loaded "001_init")) "md").
  - reflexivity.
  - apply (bool_decide_unpack _). vm_compute. exact I.
Defined.

Lemma provided_values_are_migrations_witness :
  isMigration (VObject [("up", VFunction () [])]) = true ∧
  typeof (VObject [("up", VFunction () [])]) = "object" ∧
  typeof (get_property (VObject [("up", VFunction () [])]) "up") = "function".
Proof.
  apply (provided_values_are_migrations folder_posts record_posts "001_init").
  - vm_compute. reflexivity.
  - vm_compute. reflexivity.
Defined.

Lemma last_file_of_a_key_wins_witness :
  record_posts !! "001_init" =
    last (omap (contribution folder_posts "001_init") files_posts).
Proof.
  apply (proj1 (last_file_of_a_key_wins folder_posts files_posts record_posts
                  "001_init" eq_refl ltac:(vm_compute; reflexivity))).
Defined.

Lemma provider_throws_what_the_first_bad_file_throws_witness :
  ∃ before fileName after,
    files_broken = before ++ fileName :: after ∧
    is_migration_file fileName = true ∧
    require folder_broken fileName = inl "Cannot find module" ∧
    ∀ earlier, earlier ∈ before → is_migration_file earlier = true →
               ∃ migration, require folder_broken earlier = inr migration.
Proof.
  exact (provider_throws_what_the_first_bad_file_throws folder_broken
           files_broken eq_refl).
Defined.

Lemma other_files_do_not_matter_witness :
  provider_getMigrations folder_posts =
  provider_getMigrations folder_posts_lenient.
Proof.
  apply (other_files_do_not_matter folder_posts folder_posts_lenient
           files_posts eq_refl eq_refl).
  intros fileName Hin Hload. unfold files_posts in Hin.
  repeat (apply elem_of_cons in Hin as [->|Hin]);
    [reflexivity|discriminate Hload|reflexivity|discriminate Hload|].
  apply elem_of_nil in Hin. destruct Hin.
Defined.

Lemma getMigrations_reports_every_migration_witness :
  ∃ infos,
    getMigrations props_abc listed_as_configured world_ab
      = (Return infos, world_ab) ∧
    info_name <$> infos = sorted_keys source_abc ∧
    Sorted code_unit_le (info_name <$> infos) ∧
    NoDup (info_name <$> infos) ∧
    Forall (λ info,
              source_abc !! info_name info = Some (info_migration info) ∧
              executedAt info =
                if doesTableExists listed_as_configured (db world_ab)
                then new_Date <$> executedRows (db world_ab) !! info_name info
                else None)
           infos.
Proof.
  apply (getMigrations_reports_every_migration props_abc listed_as_configured
           world_ab source_abc).
  reflexivity.
Defined.

Lemma provider_failure_is_thrown_or_returned_witness :
  getMigrations props_enoent listed_as_configured world_ab
    = (Throw (Foreign "ENOENT: no such file or directory"), world_ab) ∧
  migrate clock props_enoent to_latest world_ab
    = (Return (mkResultSet
                 (Some (Foreign "ENOENT: no such file or directory")) None),
       bootstrapped world_ab).
Proof.
  apply (provider_failure_is_thrown_or_returned clock props_enoent
           listed_as_configured to_latest world_ab).
  reflexivity.
Defined.


Lemma log_table_exists_after_migrate_witness :
  is_Some (log (db world_abc_failed)).
Proof.
  apply (log_table_exists_after_migrate clock props_abc to_latest world_fresh
           (bootstrapped world_fresh) rs_abc world_abc_failed).
  - reflexivity.
  - exact source_abc_keeps_transaction.
  - vm_compute. reflexivity.
Defined.

Lemma nothing_to_run_is_a_no_op_witness :
  migrate clock props_posts to_latest world_posts
    = (Return (mkResultSet None (Some [])), bootstrapped world_posts).
Proof.
  apply (nothing_to_run_is_a_no_op clock props_posts to_latest world_posts
           state_posts).
  - vm_compute. reflexivity.
  - right. right. left. split; vm_compute; reflexivity.
Defined.

Lemma results_list_the_candidates_witness :
  Forall (λ r, direction r = Up)
    [mkResult "001_a" Up Success; mkResult "002_b" Up Success;
     mkResult "003_c" Up Error] ∧
  migrationName <$> [mkResult "001_a" Up Success; mkResult "002_b" Up Success;
                     mkResult "003_c" Up Error] =
    name <$> slice0 Infinity (pendingMigrations state_fresh_abc).
Proof.
  apply (results_list_the_candidates clock props_abc to_latest world_fresh
           rs_abc world_abc_failed state_fresh_abc).
  - vm_compute. reflexivity.
  - vm_compute. reflexivity.
  - vm_compute. discriminate.
  - reflexivity.
  - reflexivity.
Defined.

Lemma successful_up_batch_runs_in_name_order_witness :
  results rs_posts =
    Some ((λ m, mkResult (name m) Up Success)
            <$> slice0 Infinity (pendingMigrations state_fresh_posts)) ∧
  history world_posts =
    history world_fresh ++
    up_events clock (slice0 Infinity (pendingMigrations state_fresh_posts))
      (ticks world_fresh) ∧
  ticks world_posts =
    ticks world_fresh
    + length (slice0 Infinity (pendingMigrations state_fresh_posts)) ∧
  Sorted code_unit_le
    (name <$> slice0 Infinity (pendingMigrations state_fresh_posts)).
Proof.
  apply (successful_up_batch_runs_in_name_order clock props_posts to_latest
           world_fresh rs_posts world_posts state_fresh_posts Infinity).
  - vm_compute. reflexivity.
  - vm_compute. reflexivity.
  - vm_compute. discriminate.
  - reflexivity.
  - reflexivity.
  - reflexivity.
Defined.


Lemma successful_up_batch_logs_its_candidates_witness :
  executedRows (db world_posts) !! "002_posts"
    = Some (clock (ticks world_fresh + 1)).
Proof.
  destruct (successful_up_batch_logs_its_candidates clock props_posts
              to_latest world_fresh rs_posts world_posts state_fresh_posts
              Infinity) as [Hrows _].
  - intros m Hm d. vm_compute in Hm.
    repeat (apply elem_of_cons in Hm as [->|Hm]); try reflexivity.
    apply elem_of_nil in Hm. destruct Hm.
  - vm_compute. reflexivity.
  - vm_compute. reflexivity.
  - vm_compute. discriminate.
  - reflexivity.
  - reflexivity.
  - reflexivity.
  - apply (Hrows 1 (mkNamed "002_posts" (mkMigration (create "posts") None))).
    vm_compute. reflexivity.
Defined.

Lemma successful_down_batch_unlogs_its_candidates_witness :
  executedRows (db world_down) !! "002_b" = None.
Proof.
  destruct (successful_down_batch_unlogs_its_candidates clock props_abc
              down_two world_ab rs_down world_down state_ab (Finite 2)
              [named_b; named_a]) as [Hrows _].
  - intros m op Hm Hop d. vm_compute in Hm.
    repeat (apply elem_of_cons in Hm as [->|Hm]);
      try (injection Hop as <-; reflexivity); try discriminate Hop.
    apply elem_of_nil in Hm. destruct Hm.
  - vm_compute. reflexivity.
  - vm_compute. reflexivity.
  - vm_compute. discriminate.
  - reflexivity.
  - reflexivity.
  - vm_compute. reflexivity.
  - reflexivity.
  - apply (Hrows named_b).
    + left.
    + eexists. reflexivity.
Defined.

Lemma corrupted_error_names_the_first_offender_witness :
  migrate clock props_abc to_latest world_orphan =
    (Return (mkResultSet
       (Some (JsError
          ("corrupted migrations: previously executed migration "
           +:+ "000_x" +:+ " is missing")))
       None),
     bootstrapped world_orphan).
Proof.
  apply (proj1 (corrupted_error_names_the_first_offender clock props_abc
                  to_latest world_orphan source_abc eq_refl)
           [] "000_x" []).
  - vm_compute. reflexivity.
  - intros n Hn. apply elem_of_nil in Hn. destruct Hn.
  - apply (bool_decide_unpack _). vm_compute. exact I.
Defined.

Lemma step_beyond_pending_is_migrateToLatest_witness :
  migrate clock props_posts up_five world_fresh
    = migrateToLatest clock props_posts world_fresh.
Proof.
  apply (step_beyond_pending_is_migrateToLatest clock props_posts up_five
           world_fresh).
  intros st Hget. exists 5%Z. split; [reflexivity|].
  vm_compute in Hget. injection Hget as <-. vm_compute. discriminate.
Defined.

End Scenarios.
